(** * A DHCP lease pool and packet handler (dhcp_server.py)

    Shallow embedding of [LeaseManager] and of [DHCPServer.handle_packet] /
    [DHCPServer.send_reply], followed by the properties of the lease
    life cycle, of the option parser and of the packet dispatch.

    Conventions of the embedding.
    - A Python [dict] is a [gmap]; the set comprehension [used_ips] is a
      [gset].  Neither the order of a dict nor duplicates matter to the code.
    - [bytes] is [list byte]; indexing a [bytes] object yields the integer
      value of the byte, here [byte_val].
    - [time.time()] is a reading of the wall clock.  Every method of the
      lease manager receives the reading as the argument [now]; the handful
      of readings taken inside one call are taken to be the same instant.
      A timestamp is an integer number of clock ticks: the code only compares
      timestamps and adds a constant to them.
    - An exception is a value [Raise e] of the type [result]; [Ok] is a
      normal return. *)

From Stdlib Require Import ZArith Lia Strings.String Strings.Ascii Strings.Byte.
From stdpp Require Import base decidable option list list_numbers strings pretty gmap fin_maps fin_sets.

Open Scope Z_scope.

(** ** Exceptions *)

Inductive exn : Type :=
  | StructError   (* struct.error *)
  | IndexError    (* index out of range *)
  | ValueError    (* bytes([n]) with n outside 0..255 *)
  | OSError.      (* socket.inet_ntoa / inet_aton on a bad argument *)

Inductive result (A : Type) : Type :=
  | Ok (a : A)
  | Raise (e : exn).
Arguments Ok {A} a.
Arguments Raise {A} e.

Definition rbind {A B} (r : result A) (k : A → result B) : result B :=
  match r with
  | Ok a => k a
  | Raise e => Raise e
  end.

Notation "x ←! r ; k" := (rbind r (λ x, k))
  (at level 20, r at level 100, k at level 200, right associativity,
   format "x  ←!  r ;  '/' k").

(** ** Bytes *)

#[global] Instance byte_eq_decision : EqDecision byte := Byte.byte_eq_dec.

Definition byte_val (b : byte) : Z := Z.of_N (Byte.to_N b).

Definition byte_of_Z (z : Z) : byte := default x00 (Byte.of_N (Z.to_N z)).

(** [n.to_bytes(k, 'big')] for [0 <= n < 256^k]. *)
Fixpoint be_bytes (k : nat) (n : Z) : list byte :=
  match k with
  | O => []
  | S k' => byte_of_Z ((n / 256 ^ Z.of_nat k') `mod` 256) :: be_bytes k' n
  end.

(** [int.from_bytes(bs, 'big')]. *)
Definition be_int (bs : list byte) : Z :=
  fold_left (λ acc b, acc * 256 + byte_val b) bs 0.

(** [bytes([n])]. *)
Definition bytes_of_int (n : Z) : result (list byte) :=
  if bool_decide (0 ≤ n < 256) then Ok [byte_of_Z n] else Raise ValueError.

(** ** The [struct] module, for the format characters the server uses *)

Inductive fmt : Type :=
  | FB            (* 'B', unsigned char  *)
  | FH            (* 'H', unsigned short *)
  | FI            (* 'I', unsigned int   *)
  | Fs (n : nat). (* 'ns', n bytes       *)

Definition fmt_size (f : fmt) : nat :=
  match f with
  | FB => 1
  | FH => 2
  | FI => 4
  | Fs n => n
  end.

(** [struct.calcsize] with the '!' prefix: no alignment padding. *)
Definition calcsize (fs : list fmt) : nat := sum_list (fmt_size <$> fs).

Inductive sval : Type :=
  | VInt (z : Z)
  | VBytes (bs : list byte).

Definition pack_field (f : fmt) (v : sval) : result (list byte) :=
  match f, v with
  | Fs n, VBytes bs => Ok (take n (bs ++ replicate n x00))
  | Fs _, VInt _ => Raise StructError
  | _, VBytes _ => Raise StructError
  | _, VInt z =>
      if bool_decide (0 ≤ z < 256 ^ Z.of_nat (fmt_size f))
      then Ok (be_bytes (fmt_size f) z)
      else Raise StructError
  end.

Fixpoint pack_fields (fs : list fmt) (vs : list sval) : result (list byte) :=
  match fs, vs with
  | f :: fs', v :: vs' =>
      b ←! pack_field f v;
      bs ←! pack_fields fs' vs';
      Ok (b ++ bs)
  | _, _ => Ok []
  end.

(** [struct.pack(fmt, *vs)]: the number of values must be the number of
    fields of the format. *)
Definition struct_pack (fs : list fmt) (vs : list sval) : result (list byte) :=
  if bool_decide (length vs = length fs) then pack_fields fs vs
  else Raise StructError.

Definition unpack_field (f : fmt) (bs : list byte) : sval :=
  match f with
  | Fs _ => VBytes bs
  | _ => VInt (be_int bs)
  end.

Fixpoint unpack_fields (fs : list fmt) (buf : list byte) : list sval :=
  match fs with
  | [] => []
  | f :: fs' =>
      unpack_field f (take (fmt_size f) buf)
        :: unpack_fields fs' (drop (fmt_size f) buf)
  end.

(** [struct.unpack(fmt, buf)]: the buffer must have exactly the size the
    format calls for. *)
Definition struct_unpack (fs : list fmt) (buf : list byte) : result (list sval) :=
  if bool_decide (length buf = calcsize fs) then Ok (unpack_fields fs buf)
  else Raise StructError.

(** ** Text of addresses and of hardware addresses *)

(** [str(b)] for the integer value of a byte. *)
Definition str_of_byte (b : byte) : string := pretty (byte_val b).

(** [socket.inet_ntoa(packed)]: dotted quad of exactly four bytes. *)
Definition inet_ntoa (packed : list byte) : result string :=
  if bool_decide (length packed = 4%nat)
  then Ok (String.concat "." (str_of_byte <$> packed))
  else Raise OSError.

(** [str(IPv4Address(n))]: the four bytes of [n], most significant first,
    in decimal and joined by dots.  The integers the server renders are
    those between [int(range_start)] and [int(range_end)], which are
    integers of addresses, so the constructor's range check never fires. *)
Definition ip_str (n : Z) : string :=
  String.concat "." (str_of_byte <$> be_bytes 4 n).

Definition hex_digit (d : Z) : ascii :=
  default "0"%char (String.get (Z.to_nat d) "0123456789abcdef").

(** ['%02x' % b]. *)
Definition hex2 (b : byte) : string :=
  String (hex_digit (byte_val b / 16))
    (String (hex_digit (byte_val b `mod` 16)) EmptyString).

(** [':'.join('%02x' % b for b in mac_bytes)]. *)
Definition mac_str (mac_bytes : list byte) : string :=
  String.concat ":" (hex2 <$> mac_bytes).

(** ** LeaseManager *)

(** A table entry [{'ip': ..., 'expiry': ...}]. *)
Record Lease : Type := MkLease { ip : string; expiry : Z }.

Record LeaseManager : Type := MkLeaseManager {
  subnet_netmask : Z;            (* int(self.subnet.netmask) *)
  range_start : Z;               (* int(self.range_start) *)
  range_end : Z;                 (* int(self.range_end) *)
  lease_time : Z;
  leases : gmap string Lease;    (* MAC -> {ip, expiry} *)
  offered : gmap string Lease    (* MAC -> {ip, expiry} *)
}.

Definition with_leases (s : LeaseManager) (l : gmap string Lease) : LeaseManager :=
  MkLeaseManager (subnet_netmask s) (range_start s) (range_end s)
    (lease_time s) l (offered s).

Definition with_offered (s : LeaseManager) (o : gmap string Lease) : LeaseManager :=
  MkLeaseManager (subnet_netmask s) (range_start s) (range_end s)
    (lease_time s) (leases s) o.

(** [LeaseManager.__init__]: both tables start empty. *)
Definition new_manager (netmask rs re lt : Z) : LeaseManager :=
  MkLeaseManager netmask rs re lt ∅ ∅.

(** [get_lease]: the address bound to [mac] while its expiry lies strictly
    after [now]; an entry found expired is deleted by the read. *)
Definition get_lease (s : LeaseManager) (mac : string) (now : Z)
    : option string * LeaseManager :=
  match leases s !! mac with
  | Some l =>
      if bool_decide (expiry l > now) then (Some (ip l), s)
      else (None, with_leases s (delete mac (leases s)))
  | None => (None, s)
  end.

(** Truth value of [existing] in [if existing:] and of [offered_ip] in
    [if offered_ip:]: [None] and the empty string are false. *)
Definition truthy (o : option string) : bool :=
  match o with
  | Some EmptyString => false
  | Some _ => true
  | None => false
  end.

(** The set built on lines 37-38: the address of every entry of [leases],
    and of every entry of [offered] whose expiry lies after [now]. *)
Definition used_ips (s : LeaseManager) (now : Z) : gset string :=
  map_img (ip <$> leases s)
    ∪ map_img (ip <$> filter (λ kv, expiry kv.2 > now) (offered s)).

(** The [for] loop of [offer_ip] over the integers of the range: the text
    of the first one that is not in [used]. *)
Fixpoint scan (used : gset string) (ints : list Z) : option string :=
  match ints with
  | [] => None
  | ip_int :: rest =>
      if bool_decide (ip_str ip_int ∉ used) then Some (ip_str ip_int)
      else scan used rest
  end.

(** [range(int(self.range_start), int(self.range_end) + 1)]. *)
Definition ip_range (s : LeaseManager) : list Z :=
  seqZ (range_start s) (range_end s + 1 - range_start s).

Definition offer_ip (s : LeaseManager) (mac : string) (now : Z)
    : option string * LeaseManager :=
  let '(existing, s1) := get_lease s mac now in
  if truthy existing then (existing, s1)
  else
    match scan (used_ips s1 now) (ip_range s1) with
    | Some a =>
        (Some a, with_offered s1 (<[mac := MkLease a (now + 60)]> (offered s1)))
    | None => (None, s1)
    end.

Definition commit_lease (s : LeaseManager) (mac ip_ : string) (now : Z)
    : LeaseManager :=
  MkLeaseManager (subnet_netmask s) (range_start s) (range_end s) (lease_time s)
    (<[mac := MkLease ip_ (now + lease_time s)]> (leases s))
    (delete mac (offered s)).

(** ** DHCPServer *)

(** The configuration a [DHCPServer] holds besides its lease manager. *)
Record DHCPServer : Type := MkDHCPServer {
  server_ip : string;
  dns : string
}.

Definition magic_cookie : list byte := [x63; x82; x53; x63].

(** The format ['!BBBBIHHIIII16s'] of lines 93 and 140, and the format
    ['!BBBBIHHIIII'] of line 178. *)
Definition header_fmt : list fmt :=
  [FB; FB; FB; FB; FI; FH; FH; FI; FI; FI; FI; Fs 16].

Definition header_start_fmt : list fmt :=
  [FB; FB; FB; FB; FI; FH; FH; FI; FI; FI; FI].

(** The [while idx < len(data)] loop of lines 102-111.  One unit of [fuel]
    is spent per iteration; [None] means the fuel ran out before the loop
    ended.  [data[idx+1]] raises [IndexError] past the end of the buffer,
    whereas the slice [data[idx+2:idx+2+opt_len]] is cut at the end. *)
Fixpoint parse_loop (fuel : nat) (data : list byte) (idx : nat)
    (options : gmap Z (list byte)) : option (result (gmap Z (list byte))) :=
  match fuel with
  | O => None
  | S fuel' =>
      if bool_decide (idx < length data)%nat then
        match data !! idx with
        | None => Some (Raise IndexError)
        | Some c =>
            let opt_code := byte_val c in
            if bool_decide (opt_code = 255) then Some (Ok options)
            else if bool_decide (opt_code = 0)
            then parse_loop fuel' data (idx + 1) options
            else
              match data !! (idx + 1)%nat with
              | None => Some (Raise IndexError)
              | Some l =>
                  let opt_len := Z.to_nat (byte_val l) in
                  let opt_val := take opt_len (drop (idx + 2) data) in
                  parse_loop fuel' data (idx + 2 + opt_len)
                    (<[opt_code := opt_val]> options)
              end
        end
      else Some (Ok options)
  end.

(** Every iteration advances [idx] by at least one, so [length data] units
    of fuel beyond the first are enough from any index ([parse_loop_total]
    below); the fallback branch is never taken. *)
Definition parse_options (data : list byte) : result (gmap Z (list byte)) :=
  match parse_loop (S (length data)) data 240 ∅ with
  | Some r => r
  | None => Ok ∅
  end.

(** Truth value of a [bytes] object returned by [options.get]. *)
Definition nonempty (o : option (list byte)) : bool :=
  match o with
  | Some (_ :: _) => true
  | _ => false
  end.

(** What a call of [handle_packet] leaves behind: the lease manager, and
    either the datagram handed to [sendto] (if any) or the exception that
    ended the call (the receive loop of [start] catches and logs it). *)
Definition outcome : Type := LeaseManager * result (option (list byte)).

Section Handler.

(** [socket.inet_aton] is the C library's address parser; the server calls
    it only inside [send_reply]. *)
Variable inet_aton : string → result (list byte).

(** [send_reply]: the result is the datagram handed to [sendto]; a failure
    of [sendto] itself is caught and logged inside the method. *)
Definition send_reply (srv : DHCPServer) (lm : LeaseManager)
    (xid : Z) (mac_bytes : list byte) (yiaddr_str : string) (msg_type : Z)
    : result (list byte) :=
  packet ←! struct_pack header_fmt
    [VInt 2; VInt 1; VInt 6; VInt 0; VInt xid; VInt 0; VInt 0;
     VInt 0; VInt 0; VInt 0; VInt 0; VInt 0;
     VBytes (mac_bytes ++ replicate 10 x00)];
  let packet := packet ++ replicate 192 x00 in
  let packet := packet ++ magic_cookie in
  mt ←! bytes_of_int msg_type;
  let packet := packet ++ [x35; x01] ++ mt in
  mask_bytes ←! inet_aton (ip_str (subnet_netmask lm));
  let packet := packet ++ [x01; x04] ++ mask_bytes in
  router_bytes ←! inet_aton (server_ip srv);
  let packet := packet ++ [x03; x04] ++ router_bytes in
  dns_bytes ←! inet_aton (dns srv);
  let packet := packet ++ [x06; x04] ++ dns_bytes in
  sid_bytes ←! inet_aton (server_ip srv);
  let packet := packet ++ [x36; x04] ++ sid_bytes in
  lt_bytes ←! struct_pack [FI] [VInt (lease_time lm)];
  let packet := packet ++ [x33; x04] ++ lt_bytes in
  let packet := packet ++ [xff] in
  y_bytes ←! inet_aton yiaddr_str;
  y ←! struct_unpack [FI] y_bytes;
  match y with
  | VInt yiaddr_int :: _ =>
      header_start ←! struct_pack header_start_fmt
        [VInt 2; VInt 1; VInt 6; VInt 0; VInt xid; VInt 0; VInt 0;
         VInt 0; VInt yiaddr_int; VInt 0; VInt 0];
      Ok (header_start ++ drop 28 packet)
  | _ => Raise StructError
  end.

Definition reply_with (s : LeaseManager) (r : result (list byte)) : outcome :=
  match r with
  | Ok packet => (s, Ok (Some packet))
  | Raise e => (s, Raise e)
  end.

(** Lines 95-135: what [handle_packet] does once the header fields are
    unpacked; of these only [xid] and [chaddr] are used. *)
Definition handle_unpacked (srv : DHCPServer) (s : LeaseManager) (now : Z)
    (data : list byte) (xid : Z) (chaddr : list byte) : outcome :=
  if bool_decide (take 4 (drop 236 data) ≠ magic_cookie) then (s, Ok None)
  else
    match parse_options data with
    | Raise e => (s, Raise e)
    | Ok options =>
        match options !! 53 with
        | Some (mt :: _) =>
            let msg_type := byte_val mt in
            let mac_bytes := take 6 chaddr in
            let mac := mac_str mac_bytes in
            if bool_decide (msg_type = 1) then
              let '(offered_ip, s1) := offer_ip s mac now in
              match offered_ip with
              | Some a =>
                  if truthy offered_ip
                  then reply_with s1 (send_reply srv s1 xid mac_bytes a 2)
                  else (s1, Ok None)
              | None => (s1, Ok None)
              end
            else if bool_decide (msg_type = 3) then
              match options !! 50 with
              | Some (b :: bs) =>
                  match inet_ntoa (b :: bs) with
                  | Raise e => (s, Raise e)
                  | Ok requested_ip =>
                      let s1 := commit_lease s mac requested_ip now in
                      reply_with s1
                        (send_reply srv s1 xid mac_bytes requested_ip 5)
                  end
              | _ => (s, Ok None)
              end
            else (s, Ok None)
        | _ => (s, Ok None)
        end
    end.

(** Line 93, the assignment of the unpacked tuple to its twelve names. *)
Definition handle_fields (srv : DHCPServer) (s : LeaseManager) (now : Z)
    (data : list byte) (fields : list sval) : outcome :=
  match fields with
  | [VInt op; VInt htype; VInt hlen; VInt hops; VInt xid; VInt secs;
     VInt flags; VInt ciaddr; VInt yiaddr; VInt siaddr; VInt giaddr;
     VBytes chaddr] =>
      handle_unpacked srv s now data xid chaddr
  | _ => (s, Raise ValueError)
  end.

(** [handle_packet]: the length test of line 90, the [struct.unpack] of
    line 93 on the slice [data[:28]], then the rest of the body. *)
Definition handle_packet (srv : DHCPServer) (s : LeaseManager) (now : Z)
    (data : list byte) : outcome :=
  if bool_decide (length data < 240)%nat then (s, Ok None)
  else
    match struct_unpack header_fmt (take 28 data) with
    | Raise e => (s, Raise e)
    | Ok fields => handle_fields srv s now data fields
    end.

End Handler.

(** The reply of an outcome: the datagram sent, if the call sent one. *)
Definition reply_of (o : outcome) : option (list byte) :=
  match o.2 with
  | Ok r => r
  | Raise _ => None
  end.

(** ** Sequences of calls on the lease manager *)

Inductive op : Type :=
  | Lookup (mac : string)
  | Offer (mac : string)
  | Commit (mac : string) (a : string).

Definition run_op (s : LeaseManager) (o : op) (now : Z) : LeaseManager :=
  match o with
  | Lookup mac => (get_lease s mac now).2
  | Offer mac => (offer_ip s mac now).2
  | Commit mac a => commit_lease s mac a now
  end.





(** States reached from a fresh lease manager by calls made at
    non-decreasing clock readings, each call admitted by [guard]; the
    second index is the reading of the last call. *)
Inductive reachable_by (guard : LeaseManager → op → Z → Prop)
    : LeaseManager → Z → Prop :=
  | reach_new netmask rs re lt t :
      reachable_by guard (new_manager netmask rs re lt) t
  | reach_step s t o now :
      reachable_by guard s t → t ≤ now → guard s o now →
      reachable_by guard (run_op s o now) now.

(** Every call is admitted. *)
Definition any_call (s : LeaseManager) (o : op) (now : Z) : Prop := True.


(** The address is the text of an integer of the configured range. *)
Definition in_range (s : LeaseManager) (a : string) : Prop :=
  ∃ k, range_start s ≤ k ≤ range_end s ∧ a = ip_str k.

(** ** Definitions used by the statements *)




(** The pool 192.168.10.100 - 192.168.10.101 of a /24 network with the
    default lease time, both tables empty. *)
Definition pool2 : LeaseManager :=
  new_manager 4294967040 3232238180 3232238181 3600.

(** The pool of the single address 192.168.10.100. *)
Definition pool1 : LeaseManager :=
  new_manager 4294967040 3232238180 3232238180 3600.

(** A well-formed fixed part: 236 zero bytes and the magic cookie. *)
Definition blank_header : list byte := replicate 236 x00 ++ magic_cookie.




(** One item of an options area as a sender writes it: a pad byte, or a
    code, a length byte and that many bytes of value. *)
Inductive item : Type :=
  | Pad
  | Opt (code : byte) (value : list byte).

Definition encode_item (i : item) : list byte :=
  match i with
  | Pad => [x00]
  | Opt c v => c :: byte_of_Z (Z.of_nat (length v)) :: v
  end.

Definition encode_items (l : list item) : list byte :=
  concat (encode_item <$> l).

(** An option that can be written: its code is neither pad nor end, and its
    value fits the length byte. *)
Definition wf_item (i : item) : Prop :=
  match i with
  | Pad => True
  | Opt c v => byte_val c ≠ 0 ∧ byte_val c ≠ 255 ∧ (length v < 256)%nat
  end.

(** The dictionary a list of items amounts to: a later option replaces an
    earlier one with the same code. *)
Definition store_item (options : gmap Z (list byte)) (i : item)
    : gmap Z (list byte) :=
  match i with
  | Pad => options
  | Opt c v => <[byte_val c := v]> options
  end.

Definition options_of (l : list item) : gmap Z (list byte) :=
  foldl store_item ∅ l.

(** The loop of [parse_loop] read off the bytes that remain from [idx] on;
    [parse_loop_suffix] below shows the two agree. *)
Fixpoint parse_suffix (fuel : nat) (rest : list byte)
    (options : gmap Z (list byte)) : option (result (gmap Z (list byte))) :=
  match fuel with
  | O => None
  | S fuel' =>
      match rest with
      | [] => Some (Ok options)
      | c :: r =>
          if bool_decide (byte_val c = 255) then Some (Ok options)
          else if bool_decide (byte_val c = 0) then parse_suffix fuel' r options
          else
            match r with
            | [] => Some (Raise IndexError)
            | l :: r' =>
                parse_suffix fuel' (drop (Z.to_nat (byte_val l)) r')
                  (<[byte_val c := take (Z.to_nat (byte_val l)) r']> options)
            end
      end
  end.

(** What one turn of the receive loop of [start] gets from
    [recvfrom(1024)]: a datagram, of which at most 1024 bytes are kept, read
    at the clock reading [now]; or an exception. *)
Inductive recv : Type :=
  | Datagram (payload : list byte) (now : Z)
  | RecvError.

(** The [while self.running] loop of lines 74-80 over the turns it takes
    until the server is stopped: the lease manager it ends with and the
    datagrams it has sent, in order.  An exception of [recvfrom] or of
    [handle_packet] is caught and logged, and the loop goes on. *)
Fixpoint serve (inet_aton : string → result (list byte)) (srv : DHCPServer)
    (s : LeaseManager) (turns : list recv) : LeaseManager * list (list byte) :=
  match turns with
  | [] => (s, [])
  | RecvError :: rest => serve inet_aton srv s rest
  | Datagram payload now :: rest =>
      let o := handle_packet inet_aton srv s now (take 1024 payload) in
      let '(s', sent) := serve inet_aton srv o.1 rest in
      (s', option_list (reply_of o) ++ sent)
  end.

(** How [sock.bind] of line 66 ends. *)
Inductive bind_outcome : Type :=
  | BindOk
  | BindPermissionError
  | BindOtherError.

(** [start]: a bind refused for lack of permission is logged and the method
    returns; any other failure of the bind leaves the method as an
    exception; otherwise the loop runs. *)
Definition start (inet_aton : string → result (list byte)) (srv : DHCPServer)
    (s : LeaseManager) (b : bind_outcome) (turns : list recv)
    : result (LeaseManager * list (list byte)) :=
  match b with
  | BindOk => Ok (serve inet_aton srv s turns)
  | BindPermissionError => Ok (s, [])
  | BindOtherError => Raise OSError
  end.

(** Reads back a dotted quad: the decimal number up to the next dot, and
    what follows the dot. *)
Definition digit_val (c : ascii) : Z := Z.of_nat (nat_of_ascii c) - 48.

Fixpoint read_octet (s : string) (acc : Z) : Z * string :=
  match s with
  | EmptyString => (acc, EmptyString)
  | String c r =>
      if Ascii.eqb c "." then (acc, r)
      else read_octet r (acc * 10 + digit_val c)
  end.

Definition read_quad (s : string) : list byte :=
  let '(a, r1) := read_octet s 0 in
  let '(b, r2) := read_octet r1 0 in
  let '(c, r3) := read_octet r2 0 in
  let '(d, _) := read_octet r3 0 in
  byte_of_Z <$> [a; b; c; d].

(** * Properties *)

(** ** The lease tables *)

Section LeaseFacts.

Implicit Types (s : LeaseManager) (mac a : string) (now t : Z).

Lemma elem_of_used_ips s now a :
  a ∈ used_ips s now ↔
    (∃ mac l, leases s !! mac = Some l ∧ ip l = a)
    ∨ (∃ mac o, offered s !! mac = Some o ∧ expiry o > now ∧ ip o = a).
Proof.
  unfold used_ips. rewrite elem_of_union, !elem_of_map_img.
  split; intros [[mac H]|[mac H]]; [left|right|left|right].
  - apply lookup_fmap_Some in H as (l & ? & ?). eauto.
  - apply lookup_fmap_Some in H as (o & ? & Ho).
    apply map_lookup_filter_Some in Ho as [? ?]. simpl in *. eauto 6.
  - destruct H as (l & ? & ?). exists mac.
    apply lookup_fmap_Some. eauto.
  - destruct H as (o & ? & ? & ?). exists mac.
    apply lookup_fmap_Some. exists o. split; [done|].
    apply map_lookup_filter_Some. done.
Qed.




(** *** [scan] *)

Lemma scan_Some used ints a :
  scan used ints = Some a → (a ∉ used) ∧ (∃ k, k ∈ ints ∧ a = ip_str k).
Proof.
  induction ints as [|k ints IH]; simpl; [done|].
  case_bool_decide as Hk.
  - intros [= <-]. split; [done|]. exists k. split; [left|done].
  - intros H. destruct (IH H) as (? & k' & ? & ?).
    split; [done|]. exists k'. split; [by right|done].
Qed.

Lemma scan_None used ints :
  scan used ints = None ↔ ∀ k, k ∈ ints → ip_str k ∈ used.
Proof.
  induction ints as [|k ints IH]; simpl.
  - split; [|done]. intros _ k Hk. by apply elem_of_nil in Hk.
  - case_bool_decide as Hk.
    + split; [done|]. intros H. exfalso. apply Hk, H. left.
    + rewrite IH. split.
      * intros H k' [->|?]%elem_of_cons; [|by apply H].
        done.
      * intros H k' ?. apply H. by right.
Qed.

Lemma scan_first used pre k post :
  (∀ j, j ∈ pre → ip_str j ∈ used) → ip_str k ∉ used →
  scan used (pre ++ k :: post) = Some (ip_str k).
Proof.
  intros Hpre Hk. induction pre as [|j pre IH]; simpl.
  - by rewrite bool_decide_eq_true_2.
  - rewrite bool_decide_eq_false_2.
    + apply IH. intros j' ?. apply Hpre. by right.
    + intros Hn. apply Hn, Hpre. left.
Qed.

Lemma elem_of_ip_range s k :
  k ∈ ip_range s ↔ range_start s ≤ k ≤ range_end s.
Proof. unfold ip_range. rewrite elem_of_seqZ. lia. Qed.

Lemma ip_range_split s k :
  range_start s ≤ k ≤ range_end s →
  ip_range s = seqZ (range_start s) (k - range_start s)
                 ++ k :: seqZ (k + 1) (range_end s - k).
Proof.
  intros Hk. unfold ip_range.
  replace (range_end s + 1 - range_start s)
    with ((k - range_start s) + (1 + (range_end s - k))) by lia.
  rewrite seqZ_app by lia. f_equal.
  replace (range_start s + (k - range_start s)) with k by lia.
  rewrite seqZ_cons by lia. f_equal. f_equal; lia.
Qed.

(** *** [get_lease] *)

Lemma get_lease_absent s mac now :
  leases s !! mac = None → get_lease s mac now = (None, s).
Proof. unfold get_lease. by intros ->. Qed.

Lemma get_lease_live s mac now l :
  leases s !! mac = Some l → expiry l > now →
  get_lease s mac now = (Some (ip l), s).
Proof.
  unfold get_lease. intros -> H. by rewrite bool_decide_eq_true_2.
Qed.

Lemma get_lease_expired s mac now l :
  leases s !! mac = Some l → expiry l ≤ now →
  get_lease s mac now = (None, with_leases s (delete mac (leases s))).
Proof.
  unfold get_lease. intros -> H. rewrite bool_decide_eq_false_2; [done|lia].
Qed.

(** The state after [get_lease] is the state before, or the state before
    without the entry of [mac] in [leases]. *)
Lemma get_lease_state s mac now :
  (get_lease s mac now).2 = s
  ∨ (get_lease s mac now).2 = with_leases s (delete mac (leases s))
    ∧ (get_lease s mac now).1 = None.
Proof.
  unfold get_lease. destruct (leases s !! mac) as [l|]; [|by left].
  case_bool_decide; [by left|by right].
Qed.




End LeaseFacts.

(** ** The invariant of a pool driven by confirming clients *)

Section Invariant.

Implicit Types (s : LeaseManager) (mac a : string) (now t : Z).

Lemma get_lease_range s mac now :
  range_start (get_lease s mac now).2 = range_start s
  ∧ range_end (get_lease s mac now).2 = range_end s.
Proof. by destruct (get_lease_state s mac now) as [->|[-> _]]. Qed.

(** The two ways [offer_ip] leaves the tables: as [get_lease] left them,
    or with one new offer of an address that was not in [used_ips]. *)
Lemma offer_ip_state s mac now :
  let s1 := (get_lease s mac now).2 in
  (offer_ip s mac now).2 = s1
  ∨ ∃ a, offer_ip s mac now
           = (Some a, with_offered s1 (<[mac := MkLease a (now + 60)]> (offered s1)))
         ∧ (a ∉ used_ips s1 now) ∧ in_range s a.
Proof.
  unfold offer_ip. destruct (get_lease s mac now) as [existing s1] eqn:Hg.
  simpl. destruct (truthy existing); [by left|].
  destruct (scan (used_ips s1 now) (ip_range s1)) as [a|] eqn:Hs; [|by left].
  right. exists a. split; [done|].
  apply scan_Some in Hs as (? & k & Hk & ->). split; [done|].
  apply elem_of_ip_range in Hk.
  pose proof (get_lease_range s mac now) as [E1 E2].
  rewrite Hg in E1, E2. simpl in *. exists k. split; [lia|done].
Qed.

Lemma run_op_range s o now :
  range_start (run_op s o now) = range_start s
  ∧ range_end (run_op s o now) = range_end s.
Proof.
  destruct o as [mac|mac|mac a]; simpl; [apply get_lease_range| |done].
  pose proof (get_lease_range s mac now) as [E1 E2].
  destruct (offer_ip_state s mac now) as [->|(a & -> & _)]; simpl; done.
Qed.

Lemma in_range_ext s s' a :
  range_start s' = range_start s → range_end s' = range_end s →
  in_range s a → in_range s' a.
Proof. intros E1 E2 (k & ? & ->). exists k. rewrite E1, E2. done. Qed.








End Invariant.

(** ** Claims about the lease manager *)

(** A client with an unexpired binding is handed its address again, and
    nothing changes. *)
Lemma offer_ip_bound (s : LeaseManager) (mac : string) (now : Z) (l : Lease) :
  leases s !! mac = Some l → expiry l > now → ip l ≠ EmptyString →
  offer_ip s mac now = (Some (ip l), s).
Proof.
  intros Hl He Hne. unfold offer_ip.
  rewrite (get_lease_live _ _ _ _ Hl He). simpl.
  by destruct (ip l).
Qed.

(** An offer never hands out an address in [used_ips]; the pending offer of
    the caller is in that set like everyone else's, so a client that asks
    again while its offer is pending is never given the same address. *)
Lemma offer_ip_avoids_own_offer (s : LeaseManager) (mac : string) (now : Z) (o : Lease) :
  leases s !! mac = None → offered s !! mac = Some o → expiry o > now →
  (offer_ip s mac now).1 ≠ Some (ip o).
Proof.
  intros Hl Ho He. unfold offer_ip. rewrite (get_lease_absent _ _ _ Hl). simpl.
  destruct (scan (used_ips s now) (ip_range s)) as [a|] eqn:Hs; simpl; [|done].
  intros [= ->]. apply scan_Some in Hs as [Hfree _]. apply Hfree.
  apply elem_of_used_ips. right. eauto 6.
Qed.

(** C1 (the code departs from the claim).  In the two-address pool a first
    DISCOVER of a client at time 0 is offered 192.168.10.100; the client has
    no binding and its offer runs until time 60; asking again at time 1 it is
    offered 192.168.10.101, not 192.168.10.100 again. *)
Theorem repeated_offer_moves_on :
  let mac := "aa:bb:cc:dd:ee:01"%string in
  let r1 := offer_ip pool2 mac 0 in
  let r2 := offer_ip r1.2 mac 1 in
  r1.1 = Some "192.168.10.100"%string
  ∧ leases r1.2 !! mac = None
  ∧ offered r1.2 !! mac = Some (MkLease "192.168.10.100" 60)
  ∧ r2.1 = Some "192.168.10.101"%string.
Proof. vm_compute. done. Qed.

(** With a single address the repeated request is answered by nothing. *)
Example repeated_offer_single_address :
  let s := new_manager 4294967040 3232238180 3232238180 3600 in
  (offer_ip s "aa:bb:cc:dd:ee:01" 0).1 = Some "192.168.10.100"%string
  ∧ (offer_ip (offer_ip s "aa:bb:cc:dd:ee:01" 0).2 "aa:bb:cc:dd:ee:01" 1).1 = None.
Proof. vm_compute. done. Qed.




(** C6.  After [commit_lease s mac a t], a lookup of [mac] at any time
    before [t + lease_time] returns [a] and changes nothing, and [mac] has
    no entry in the table of offers. *)
Theorem commit_then_lookup (s : LeaseManager) (mac a : string) (t t' : Z) :
  0 < lease_time s → t' < t + lease_time s →
  get_lease (commit_lease s mac a t) mac t' = (Some a, commit_lease s mac a t)
  ∧ offered (commit_lease s mac a t) !! mac = None.
Proof.
  intros _ Ht. split.
  - rewrite (get_lease_live _ _ _ (MkLease a (t + lease_time s))); simpl;
      [done| |lia]. apply lookup_insert_eq.
  - simpl. apply lookup_delete_eq.
Qed.

Lemma commit_then_lookup_witness :
  get_lease (commit_lease pool2 "aa:bb:cc:dd:ee:01" "192.168.10.100" 10)
      "aa:bb:cc:dd:ee:01" 3609
    = (Some "192.168.10.100"%string,
       commit_lease pool2 "aa:bb:cc:dd:ee:01" "192.168.10.100" 10)
  ∧ offered (commit_lease pool2 "aa:bb:cc:dd:ee:01" "192.168.10.100" 10)
      !! "aa:bb:cc:dd:ee:01" = None.
Proof.
  apply (commit_then_lookup pool2 "aa:bb:cc:dd:ee:01" "192.168.10.100" 10 3609);
    simpl; lia.
Defined.

(** C3, as stated, fails for a different MAC: the binding of the first
    client (made at time 1, expired at time 3601) is still in [leases] at
    time 4000, no lookup of that client having removed it, and the offer for
    a second client finds no free address. *)
Lemma expired_binding_blocks_other_mac :
  let m1 := "aa:bb:cc:dd:ee:01"%string in
  let m2 := "aa:bb:cc:dd:ee:02"%string in
  let s := run_op (run_op pool1 (Offer m1) 0) (Commit m1 "192.168.10.100") 1 in
  leases s !! m1 = Some (MkLease "192.168.10.100" 3601)
  ∧ (get_lease s m1 4000).1 = None
  ∧ (offer_ip s m2 4000).1 = None.
Proof. vm_compute. done. Qed.

(** Once a lookup of the first client has removed the entry, the second
    client is offered the address. *)
Example expired_binding_reused_after_lookup :
  let m1 := "aa:bb:cc:dd:ee:01"%string in
  let m2 := "aa:bb:cc:dd:ee:02"%string in
  let s := run_op (run_op pool1 (Offer m1) 0) (Commit m1 "192.168.10.100") 1 in
  (offer_ip (get_lease s m1 4000).2 m2 4000).1 = Some "192.168.10.100"%string.
Proof. vm_compute. done. Qed.

(** C3 (amended).  When the binding of [mac] has an expiry that is not after
    [now], [get_lease] returns [None] and deletes the entry, and an offer to
    [mac] itself proceeds from the state without the entry.  In that state
    an offer to any MAC without a binding of its own returns the address of
    the deleted binding whenever it is the first address of the range that
    is not in [used_ips]. *)
Theorem expired_binding_absent_then_reusable
    (s : LeaseManager) (mac : string) (l : Lease) (now : Z) :
  leases s !! mac = Some l → expiry l ≤ now →
  let s' := with_leases s (delete mac (leases s)) in
  get_lease s mac now = (None, s')
  ∧ offer_ip s mac now = offer_ip s' mac now
  ∧ ∀ mac' now' k,
      leases s' !! mac' = None →
      ip l = ip_str k → range_start s ≤ k ≤ range_end s →
      ip l ∉ used_ips s' now' →
      (∀ j, range_start s ≤ j < k → ip_str j ∈ used_ips s' now') →
      (offer_ip s' mac' now').1 = Some (ip l).
Proof.
  intros Hl He s'. split; [by apply (get_lease_expired s mac now l)|]. split.
  - unfold offer_ip. rewrite (get_lease_expired _ _ _ _ Hl He).
    rewrite (get_lease_absent s'); [done|]. apply lookup_delete_eq.
  - intros mac' now' k Hn Hk Hr Hfree Hpre.
    unfold offer_ip. rewrite (get_lease_absent _ _ _ Hn). simpl.
    assert (Hs : scan (used_ips s' now') (ip_range s') = Some (ip l)).
    { rewrite (ip_range_split s' k) by done. rewrite Hk.
      apply scan_first; [|by rewrite <- Hk].
      intros j Hj. apply elem_of_seqZ in Hj. apply Hpre. simpl in Hj. lia. }
    by rewrite Hs.
Qed.

Lemma expired_binding_absent_then_reusable_witness :
  let m1 := "aa:bb:cc:dd:ee:01"%string in
  let s := run_op (run_op pool1 (Offer m1) 0) (Commit m1 "192.168.10.100") 1 in
  let s' := with_leases s (delete m1 (leases s)) in
  get_lease s m1 4000 = (None, s')
  ∧ offer_ip s m1 4000 = offer_ip s' m1 4000
  ∧ ∀ mac' now' k,
      leases s' !! mac' = None →
      ip (MkLease "192.168.10.100" 3601) = ip_str k →
      range_start s ≤ k ≤ range_end s →
      ip (MkLease "192.168.10.100" 3601) ∉ used_ips s' now' →
      (∀ j, range_start s ≤ j < k → ip_str j ∈ used_ips s' now') →
      (offer_ip s' mac' now').1 = Some (ip (MkLease "192.168.10.100" 3601)).
Proof.
  intros m1 s.
  apply (expired_binding_absent_then_reusable s m1
           (MkLease "192.168.10.100" 3601) 4000).
  - vm_compute. done.
  - simpl. lia.
Defined.


(** When every address of the range is in [used_ips], an offer to a MAC
    without a binding entry returns [None] and leaves the state as it is. *)
Lemma offer_ip_exhausted (s : LeaseManager) (mac : string) (now : Z) :
  leases s !! mac = None →
  (∀ k, k ∈ ip_range s → ip_str k ∈ used_ips s now) →
  offer_ip s mac now = (None, s).
Proof.
  intros Hl Hall. unfold offer_ip. rewrite (get_lease_absent _ _ _ Hl). simpl.
  apply scan_None in Hall. by rewrite Hall.
Qed.





(** ** The option parser *)

Section Parser.

Implicit Types (data : list byte) (options : gmap Z (list byte)).

(** The loop ends within [length data - idx + 1] iterations. *)
Lemma parse_loop_total fuel data idx options :
  (length data - idx < fuel)%nat →
  is_Some (parse_loop fuel data idx options).
Proof.
  revert idx options. induction fuel as [|fuel IH]; intros idx options Hf;
    [lia|]. simpl.
  case_bool_decide as Hidx; [|by eexists].
  destruct (data !! idx) as [c|]; [|by eexists].
  case_bool_decide; [by eexists|].
  case_bool_decide; [apply IH; lia|].
  destruct (data !! (idx + 1)%nat) as [l|]; [|by eexists].
  apply IH. lia.
Qed.

(** More fuel does not change a result. *)
Lemma parse_loop_fuel_mono fuel fuel' data idx options r :
  (fuel ≤ fuel')%nat →
  parse_loop fuel data idx options = Some r →
  parse_loop fuel' data idx options = Some r.
Proof.
  revert fuel' idx options.
  induction fuel as [|fuel IH]; intros fuel' idx options Hle; [done|].
  destruct fuel' as [|fuel']; [lia|]. simpl.
  case_bool_decide; [|done].
  destruct (data !! idx) as [c|]; [|done].
  case_bool_decide; [done|].
  case_bool_decide; [apply IH; lia|].
  destruct (data !! (idx + 1)%nat) as [l|]; [|done].
  apply IH. lia.
Qed.

(** [parse_options] is the result of the loop, whatever the fuel beyond
    the length of the buffer. *)
Lemma parse_options_loop data :
  ∃ r, parse_options data = r
       ∧ ∀ fuel, (length data < fuel)%nat →
                 parse_loop fuel data 240 ∅ = Some r.
Proof.
  unfold parse_options.
  destruct (parse_loop_total (S (length data)) data 240 ∅) as [r Hr]; [lia|].
  exists r. rewrite Hr. split; [done|].
  intros fuel Hf. eapply parse_loop_fuel_mono; [|exact Hr]. lia.
Qed.

(** An option code other than 0 and 255 in the last byte of the buffer
    makes the next read, [data[idx+1]], raise. *)
Lemma parse_loop_missing_length fuel data idx options c :
  data !! idx = Some c → byte_val c ≠ 255 → byte_val c ≠ 0 →
  (length data ≤ idx + 1)%nat →
  parse_loop (S fuel) data idx options = Some (Raise IndexError).
Proof.
  intros Hc H255 H0 Hlen. simpl.
  rewrite bool_decide_eq_true_2 by (by eapply lookup_lt_Some).
  rewrite Hc. rewrite !bool_decide_eq_false_2 by done.
  by rewrite lookup_ge_None_2 by lia.
Qed.

End Parser.

(** C4 (the code departs from the claim).  The buffer made of a well-formed
    fixed part followed by the single byte 53 has 241 bytes and a valid
    magic cookie; parsing its options raises [IndexError] on the read of the
    length byte, which lies past the end of the buffer. *)
Theorem truncated_option_raises :
  let data := blank_header ++ [x35] in
  length data = 241%nat
  ∧ take 4 (drop 236 data) = magic_cookie
  ∧ parse_options data = Raise IndexError.
Proof. vm_compute. done. Qed.

(** A declared length that runs past the end of the buffer is no failure:
    the slice is cut at the end of the buffer. *)
Example overlong_option_truncated :
  parse_options (blank_header ++ [x35; x05; x01]) = Ok {[ 53 := [x01] ]}.
Proof. vm_compute. done. Qed.

(** A buffer without an end option parses to the end. *)
Example options_without_end :
  parse_options (blank_header ++ [x00; x35; x01; x03; x32; x04; x0a; x00; x00; x07])
  = Ok (<[50 := [x0a; x00; x00; x07]]> {[ 53 := [x03] ]}).
Proof. vm_compute. done. Qed.

(** ** The packet handler *)

(** The format of line 93 describes 44 bytes (the 28 bytes up to [giaddr]
    and the 16 bytes of [chaddr]); the format of line 178 describes 28. *)
Example calcsize_header_fmt : calcsize header_fmt = 44%nat.
Proof. reflexivity. Qed.

Example calcsize_header_start_fmt : calcsize header_start_fmt = 28%nat.
Proof. reflexivity. Qed.

Section HandlerFacts.

Variable inet_aton : string → result (list byte).
Implicit Types (srv : DHCPServer) (s : LeaseManager) (data : list byte).

(** The slice [data[:28]] never has the 44 bytes the format calls for. *)
Lemma unpack_header_raises data :
  struct_unpack header_fmt (take 28 data) = Raise StructError.
Proof.
  unfold struct_unpack. rewrite bool_decide_eq_false_2; [done|].
  rewrite length_take. change (calcsize header_fmt) with 44%nat. lia.
Qed.

(** The first [struct.pack] of [send_reply] is given 13 values for the 12
    fields of its format. *)
Lemma send_reply_raises srv lm xid mac_bytes yiaddr_str msg_type :
  send_reply inet_aton srv lm xid mac_bytes yiaddr_str msg_type
  = Raise StructError.
Proof. reflexivity. Qed.

Lemma handle_packet_short srv s now data :
  (length data < 240)%nat → handle_packet inet_aton srv s now data = (s, Ok None).
Proof. intros H. unfold handle_packet. by rewrite bool_decide_eq_true_2. Qed.

Lemma handle_packet_long srv s now data :
  (240 ≤ length data)%nat →
  handle_packet inet_aton srv s now data = (s, Raise StructError).
Proof.
  intros H. unfold handle_packet.
  rewrite bool_decide_eq_false_2 by lia. by rewrite unpack_header_raises.
Qed.

(** Whatever the datagram, [handle_packet] sends nothing and leaves the
    lease manager as it was. *)
Lemma handle_packet_inert srv s now data :
  reply_of (handle_packet inet_aton srv s now data) = None
  ∧ (handle_packet inet_aton srv s now data).1 = s.
Proof.
  destruct (decide (length data < 240)%nat).
  - by rewrite handle_packet_short.
  - rewrite handle_packet_long by lia. done.
Qed.

Lemma handle_unpacked_bad_cookie srv s now data xid chaddr :
  take 4 (drop 236 data) ≠ magic_cookie →
  handle_unpacked inet_aton srv s now data xid chaddr = (s, Ok None).
Proof. intros H. unfold handle_unpacked. by rewrite bool_decide_eq_true_2. Qed.

Lemma handle_unpacked_no_type srv s now data xid chaddr options :
  parse_options data = Ok options → nonempty (options !! 53) = false →
  handle_unpacked inet_aton srv s now data xid chaddr = (s, Ok None).
Proof.
  intros Hp Hn. unfold handle_unpacked. case_bool_decide; [done|].
  rewrite Hp. by destruct (options !! 53) as [[|??]|].
Qed.

Lemma handle_unpacked_other_type srv s now data xid chaddr options mt rest :
  parse_options data = Ok options → options !! 53 = Some (mt :: rest) →
  byte_val mt ≠ 1 → byte_val mt ≠ 3 →
  handle_unpacked inet_aton srv s now data xid chaddr = (s, Ok None).
Proof.
  intros Hp H53 H1 H3. unfold handle_unpacked. case_bool_decide; [done|].
  rewrite Hp, H53. by rewrite !bool_decide_eq_false_2.
Qed.

(** Past the header, a DISCOVER or a REQUEST changes the tables, but the
    call still ends in the exception of [send_reply]: no datagram is sent. *)
Lemma handle_unpacked_never_replies srv s now data xid chaddr :
  reply_of (handle_unpacked inet_aton srv s now data xid chaddr) = None.
Proof.
  unfold handle_unpacked, reply_of.
  repeat (case_bool_decide || case_match); simplify_eq/=; done.
Qed.


End HandlerFacts.

(** C5.  A datagram shorter than 240 bytes, a datagram whose bytes 236-239
    are not the magic cookie, and a datagram whose options parse but hold no
    non-empty option 53: for each, [handle_packet] sends no reply and leaves
    the lease manager unchanged; so does, whatever the header fields, the
    part of the body that follows the unpacking of the header. *)
Theorem malformed_packet_dropped
    (inet_aton : string → result (list byte)) (srv : DHCPServer)
    (s : LeaseManager) (now : Z) (data : list byte) :
  (length data < 240)%nat
  ∨ take 4 (drop 236 data) ≠ magic_cookie
  ∨ (∃ options, parse_options data = Ok options
                ∧ nonempty (options !! 53) = false) →
  (reply_of (handle_packet inet_aton srv s now data) = None
   ∧ (handle_packet inet_aton srv s now data).1 = s)
  ∧ ∀ xid chaddr,
      handle_unpacked inet_aton srv s now data xid chaddr = (s, Ok None).
Proof.
  intros H. split; [apply handle_packet_inert|]. intros xid chaddr.
  destruct H as [H|[H|(options & Hp & Hn)]].
  - apply handle_unpacked_bad_cookie. intros E.
    apply (f_equal length) in E. rewrite length_take, length_drop in E.
    change (length magic_cookie) with 4%nat in E. lia.
  - by apply handle_unpacked_bad_cookie.
  - by eapply handle_unpacked_no_type.
Qed.

Lemma malformed_packet_dropped_witness :
  let aton := λ _ : string, Raise OSError in
  let srv := MkDHCPServer "192.168.10.1" "8.8.8.8" in
  let data := blank_header ++ [x32; x04; x0a; x00; x00; x07; xff] in
  (reply_of (handle_packet aton srv pool2 0 data) = None
   ∧ (handle_packet aton srv pool2 0 data).1 = pool2)
  ∧ ∀ xid chaddr,
      handle_unpacked aton srv pool2 0 data xid chaddr = (pool2, Ok None).
Proof.
  intros aton srv data.
  apply (malformed_packet_dropped aton srv pool2 0 data).
  right. right. exists {[ 50 := [x0a; x00; x00; x07] ]}.
  vm_compute. done.
Defined.

(** C9.  A datagram of at least 240 bytes with the magic cookie and a
    non-empty option 53 whose first byte is neither 1 nor 3: [handle_packet]
    sends no reply and leaves the lease manager unchanged; so does, whatever
    the header fields, the part of the body that follows the unpacking of
    the header. *)
Theorem other_message_type_ignored
    (inet_aton : string → result (list byte)) (srv : DHCPServer)
    (s : LeaseManager) (now : Z) (data : list byte)
    (options : gmap Z (list byte)) (mt : byte) (rest : list byte) :
  (240 ≤ length data)%nat → take 4 (drop 236 data) = magic_cookie →
  parse_options data = Ok options → options !! 53 = Some (mt :: rest) →
  byte_val mt ≠ 1 → byte_val mt ≠ 3 →
  (reply_of (handle_packet inet_aton srv s now data) = None
   ∧ (handle_packet inet_aton srv s now data).1 = s)
  ∧ ∀ xid chaddr,
      handle_unpacked inet_aton srv s now data xid chaddr = (s, Ok None).
Proof.
  intros _ _ Hp H53 H1 H3. split; [apply handle_packet_inert|].
  intros xid chaddr. by eapply handle_unpacked_other_type.
Qed.

Lemma other_message_type_ignored_witness :
  let aton := λ _ : string, Raise OSError in
  let srv := MkDHCPServer "192.168.10.1" "8.8.8.8" in
  let data := blank_header ++ [x35; x01; x07; xff] in
  (reply_of (handle_packet aton srv pool2 0 data) = None
   ∧ (handle_packet aton srv pool2 0 data).1 = pool2)
  ∧ ∀ xid chaddr,
      handle_unpacked aton srv pool2 0 data xid chaddr = (pool2, Ok None).
Proof.
  intros aton srv data.
  apply (other_message_type_ignored aton srv pool2 0 data
           {[ 53 := [x07] ]} x07 []).
  - apply Nat.leb_le. vm_compute. reflexivity.
  - vm_compute. done.
  - vm_compute. done.
  - vm_compute. done.
  - vm_compute. done.
  - vm_compute. done.
Defined.

(** C8 (the code departs from the claim).  No reply is ever encoded and no
    datagram is ever decoded: [send_reply] raises in its first statement,
    which gives [struct.pack] one value more than its format has fields, and
    the [struct.unpack] of [handle_packet] raises on the 28-byte slice it is
    given for a 44-byte format. *)
Theorem reply_codec_raises
    (inet_aton : string → result (list byte)) (srv : DHCPServer)
    (lm : LeaseManager) (xid : Z) (mac_bytes : list byte)
    (yiaddr_str : string) (msg_type : Z) (data : list byte) :
  send_reply inet_aton srv lm xid mac_bytes yiaddr_str msg_type
    = Raise StructError
  ∧ struct_unpack header_fmt (take 28 data) = Raise StructError.
Proof. split; [apply send_reply_raises|apply unpack_header_raises]. Qed.

(** ** The client key *)









(** The key of the hardware address 00:1a:ff:0b:c0:9e. *)
Example mac_str_example :
  mac_str (take 6 ([x00; x1a; xff; x0b; xc0; x9e] ++ replicate 10 x00))
  = "00:1a:ff:0b:c0:9e"%string.
Proof. reflexivity. Qed.

(** * Further properties *)

(** ** The lease manager, call by call *)

(** Lines 40-45 over an integer interval: the address found is that of the
    lowest integer whose text is not in [used]. *)
Lemma scan_seqZ_lowest (used : gset string) (len : nat) (start : Z) (a : string) :
  scan used (seqZ start (Z.of_nat len)) = Some a →
  ∃ k, start ≤ k < start + Z.of_nat len ∧ a = ip_str k ∧ (a ∉ used)
       ∧ ∀ j, start ≤ j < k → ip_str j ∈ used.
Proof.
  revert start. induction len as [|len IH]; intros start; [done|].
  rewrite seqZ_cons by lia. simpl. case_bool_decide as Hk.
  - intros [= <-]. exists start. repeat split; [lia|lia|done|]. intros j ?. lia.
  - replace (Z.pred (Z.of_nat (S len))) with (Z.of_nat len) by lia.
    intros H. destruct (IH _ H) as (k & ? & -> & ? & Hpre).
    exists k. repeat split; [lia|lia|done|].
    intros j Hj. destruct (decide (j = start)) as [->|]; [done|].
    apply Hpre. lia.
Qed.

Lemma lease_time_get_lease (s : LeaseManager) (mac : string) (now : Z) :
  lease_time (get_lease s mac now).2 = lease_time s.
Proof. by destruct (get_lease_state s mac now) as [->|[-> _]]. Qed.

(** The text of an address is never the empty string. *)
Lemma ip_str_nonempty (k : Z) : ip_str k ≠ EmptyString.
Proof.
  unfold ip_str. simpl. by destruct (str_of_byte _).
Qed.

(** X1.  A lookup repeated at the same instant returns the same answer and
    changes nothing more. *)
Theorem lookup_idempotent (s : LeaseManager) (mac : string) (now : Z) :
  get_lease (get_lease s mac now).2 mac now
  = ((get_lease s mac now).1, (get_lease s mac now).2).
Proof.
  destruct (leases s !! mac) as [l|] eqn:Hl.
  - destruct (decide (expiry l > now)) as [He|He].
    + rewrite (get_lease_live s mac now l Hl He). simpl.
      by apply get_lease_live.
    + rewrite (get_lease_expired s mac now l Hl) by lia. simpl.
      apply get_lease_absent. simpl. apply lookup_delete_eq.
  - rewrite (get_lease_absent s mac now Hl). simpl. by apply get_lease_absent.
Qed.

(** X2.  A lookup leaves the offers, the configuration and the bindings of
    all other MACs alone; when it answers with an address nothing changes at
    all, and when it answers [None] the MAC has no binding entry
    afterwards. *)
Theorem lookup_frame (s : LeaseManager) (mac : string) (now : Z) :
  let r := get_lease s mac now in
  offered r.2 = offered s
  ∧ (range_start r.2, range_end r.2, lease_time r.2, subnet_netmask r.2)
    = (range_start s, range_end s, lease_time s, subnet_netmask s)
  ∧ (∀ mac', mac' ≠ mac → leases r.2 !! mac' = leases s !! mac')
  ∧ (∀ a, r.1 = Some a → r.2 = s)
  ∧ (r.1 = None → leases r.2 !! mac = None).
Proof.
  unfold get_lease. destruct (leases s !! mac) as [l|] eqn:Hl.
  - case_bool_decide; simpl.
    + repeat split; done.
    + repeat split; try done.
      * intros mac' ?. by apply lookup_delete_ne.
      * intros _. apply lookup_delete_eq.
  - simpl. repeat split; done.
Qed.

(** X3.  The comparison with the expiry is strict: a lookup at the instant
    of expiry, or later, answers [None] and deletes the binding, so that the
    MAC is left with neither binding nor offer.  With a lease time of zero or
    less this is so from the instant of the commit. *)
Theorem lookup_from_expiry_on (s : LeaseManager) (mac a : string) (t t' : Z) :
  t + lease_time s ≤ t' →
  get_lease (commit_lease s mac a t) mac t'
  = (None,
     MkLeaseManager (subnet_netmask s) (range_start s) (range_end s)
       (lease_time s) (delete mac (leases s)) (delete mac (offered s))).
Proof.
  intros Ht.
  rewrite (get_lease_expired _ _ _ (MkLease a (t + lease_time s)));
    [|apply lookup_insert_eq|simpl; lia].
  unfold with_leases. simpl. by rewrite delete_insert_eq.
Qed.

Lemma lookup_from_expiry_on_witness :
  get_lease (commit_lease pool2 "aa:bb:cc:dd:ee:01" "192.168.10.100" 10)
    "aa:bb:cc:dd:ee:01" 3610
  = (None,
     MkLeaseManager (subnet_netmask pool2) (range_start pool2) (range_end pool2)
       (lease_time pool2) (delete "aa:bb:cc:dd:ee:01" (leases pool2))
       (delete "aa:bb:cc:dd:ee:01" (offered pool2))).
Proof.
  apply (lookup_from_expiry_on pool2 "aa:bb:cc:dd:ee:01" "192.168.10.100" 10 3610).
  simpl. lia.
Defined.

(** X4.  A client whose binding has not expired is handed its bound address
    again by [offer_ip]; no offer is recorded and nothing changes. *)
Theorem offer_to_bound_client
    (s : LeaseManager) (mac : string) (now : Z) (l : Lease) :
  leases s !! mac = Some l → expiry l > now → ip l ≠ EmptyString →
  offer_ip s mac now = (Some (ip l), s).
Proof. apply offer_ip_bound. Qed.

Lemma offer_to_bound_client_witness :
  let s := commit_lease pool2 "aa:bb:cc:dd:ee:01" "192.168.10.101" 10 in
  offer_ip s "aa:bb:cc:dd:ee:01" 20 = (Some (ip (MkLease "192.168.10.101" 3610)), s).
Proof.
  intros s.
  apply (offer_to_bound_client s "aa:bb:cc:dd:ee:01" 20 (MkLease "192.168.10.101" 3610)).
  - vm_compute. done.
  - simpl. lia.
  - simpl. discriminate.
Defined.

(** The two outcomes of a successful [offer_ip]. *)
Lemma offer_ip_Some (s : LeaseManager) (mac : string) (now : Z) (a : string)
    (s' : LeaseManager) :
  offer_ip s mac now = (Some a, s') →
  (s' = s ∧ ∃ l, leases s !! mac = Some l ∧ expiry l > now ∧ ip l = a)
  ∨ (let s1 := (get_lease s mac now).2 in
     s' = with_offered s1 (<[mac := MkLease a (now + 60)]> (offered s1))
     ∧ (a ∉ used_ips s1 now)
     ∧ ∃ k, range_start s ≤ k ≤ range_end s ∧ a = ip_str k
            ∧ ∀ j, range_start s ≤ j < k → ip_str j ∈ used_ips s1 now).
Proof.
  unfold offer_ip. pose proof (get_lease_range s mac now) as [E1 E2].
  destruct (get_lease s mac now) as [existing s1] eqn:Hg. simpl in *.
  destruct (truthy existing) eqn:Ht.
  - intros [= -> ->]. left. unfold get_lease in Hg.
    destruct (leases s !! mac) as [l|]; [|by simplify_eq].
    case_bool_decide; simplify_eq; eauto.
  - destruct (scan (used_ips s1 now) (ip_range s1)) as [a'|] eqn:Hs; [|done].
    intros [= -> <-]. right. split; [done|].
    unfold ip_range in Hs.
    destruct (decide (range_end s1 + 1 - range_start s1 < 0)) as [Hneg|Hpos].
    { by rewrite seqZ_nil in Hs by lia. }
    rewrite <- (Z2Nat.id (range_end s1 + 1 - range_start s1)) in Hs by lia.
    apply scan_seqZ_lowest in Hs as (k & Hk & -> & Hfree & Hpre).
    split; [done|]. exists k. rewrite <- E1, <- E2.
    split; [lia|]. split; [done|]. intros j Hj. apply Hpre. lia.
Qed.

(** X5.  An address offered to a client without a binding entry belongs to
    the configured range, is the address of no entry of [leases] and of no
    unexpired offer, and is recorded as the offer of that client with an
    expiry 60 ticks ahead; the bindings and the offers of the other clients
    are as before. *)
Theorem offer_is_fresh_and_recorded
    (s s' : LeaseManager) (mac a : string) (now : Z) :
  leases s !! mac = None → offer_ip s mac now = (Some a, s') →
  in_range s a
  ∧ (a ∉ used_ips s now)
  ∧ offered s' !! mac = Some (MkLease a (now + 60))
  ∧ leases s' = leases s
  ∧ ∀ mac', mac' ≠ mac → offered s' !! mac' = offered s !! mac'.
Proof.
  intros Hl H. apply offer_ip_Some in H as [[_ (l & Hl' & _)]|H]; [congruence|].
  rewrite (get_lease_absent _ _ _ Hl) in H. simpl in H.
  destruct H as (-> & Hfree & k & Hk & -> & _).
  split; [by exists k|]. split; [done|]. simpl.
  split; [apply lookup_insert_eq|]. split; [done|].
  intros mac' ?. by apply lookup_insert_ne.
Qed.

Lemma offer_is_fresh_and_recorded_witness :
  let mac := "aa:bb:cc:dd:ee:01"%string in
  let a := "192.168.10.100"%string in
  let s' := (offer_ip pool2 mac 0).2 in
  in_range pool2 a
  ∧ (a ∉ used_ips pool2 0)
  ∧ offered s' !! mac = Some (MkLease a (0 + 60))
  ∧ leases s' = leases pool2
  ∧ ∀ mac', mac' ≠ mac → offered s' !! mac' = offered pool2 !! mac'.
Proof.
  intros mac a s'.
  apply (offer_is_fresh_and_recorded pool2 s' mac a 0).
  - reflexivity.
  - vm_compute. reflexivity.
Defined.

(** X6.  The scan is first-fit: the address offered to a client without a
    binding entry is not in use, and it is that of the lowest integer of the
    range whose address is not in use. *)
Theorem offer_is_lowest_free
    (s s' : LeaseManager) (mac a : string) (now : Z) :
  leases s !! mac = None → offer_ip s mac now = (Some a, s') →
  ∃ k, range_start s ≤ k ≤ range_end s ∧ a = ip_str k
       ∧ (ip_str k ∉ used_ips s now)
       ∧ ∀ j, range_start s ≤ j < k → ip_str j ∈ used_ips s now.
Proof.
  intros Hl H. apply offer_ip_Some in H as [[_ (l & Hl' & _)]|H]; [congruence|].
  rewrite (get_lease_absent _ _ _ Hl) in H. simpl in H.
  destruct H as (_ & Hfree & k & Hk & -> & Hpre). by exists k.
Qed.

Lemma offer_is_lowest_free_witness :
  let s := (offer_ip pool2 "aa:bb:cc:dd:ee:01" 0).2 in
  ∃ k, range_start s ≤ k ≤ range_end s ∧ "192.168.10.101"%string = ip_str k
       ∧ (ip_str k ∉ used_ips s 1)
       ∧ ∀ j, range_start s ≤ j < k → ip_str j ∈ used_ips s 1.
Proof.
  intros s.
  apply (offer_is_lowest_free s (offer_ip s "aa:bb:cc:dd:ee:02" 1).2
           "aa:bb:cc:dd:ee:02" "192.168.10.101" 1).
  - vm_compute. reflexivity.
  - vm_compute. reflexivity.
Defined.

(** X7.  For a client without a binding entry, [offer_ip] answers [None]
    exactly when the address of every integer of the range is in use, and
    then it changes nothing. *)
Theorem offer_none_iff_exhausted (s : LeaseManager) (mac : string) (now : Z) :
  leases s !! mac = None →
  ((offer_ip s mac now).1 = None
     ↔ ∀ k, range_start s ≤ k ≤ range_end s → ip_str k ∈ used_ips s now)
  ∧ ((offer_ip s mac now).1 = None → (offer_ip s mac now).2 = s).
Proof.
  intros Hl. unfold offer_ip. rewrite (get_lease_absent _ _ _ Hl). simpl.
  destruct (scan (used_ips s now) (ip_range s)) as [a|] eqn:Hs; simpl.
  - split; [|done]. split; [done|]. intros Hall. exfalso.
    apply scan_Some in Hs as (Hfree & k & Hk & ->).
    apply Hfree, Hall. by apply elem_of_ip_range.
  - split; [|done]. split; [|done]. intros _ k Hk.
    apply (proj1 (scan_None _ _) Hs). by apply elem_of_ip_range.
Qed.

Lemma offer_none_iff_exhausted_witness :
  let s := (offer_ip pool1 "aa:bb:cc:dd:ee:01" 0).2 in
  ((offer_ip s "aa:bb:cc:dd:ee:02" 1).1 = None
     ↔ ∀ k, range_start s ≤ k ≤ range_end s → ip_str k ∈ used_ips s 1)
  ∧ ((offer_ip s "aa:bb:cc:dd:ee:02" 1).1 = None
     → (offer_ip s "aa:bb:cc:dd:ee:02" 1).2 = s).
Proof.
  intros s. apply (offer_none_iff_exhausted s "aa:bb:cc:dd:ee:02" 1).
  vm_compute. reflexivity.
Defined.

(** X8.  A pool configured with its range end below its range start offers
    nothing to a client without a binding entry, whatever the tables hold. *)
Theorem empty_range_never_offers (s : LeaseManager) (mac : string) (now : Z) :
  range_end s < range_start s → leases s !! mac = None →
  offer_ip s mac now = (None, s).
Proof.
  intros Hr Hl. apply offer_ip_exhausted; [done|].
  intros k Hk. apply elem_of_ip_range in Hk. lia.
Qed.

Lemma empty_range_never_offers_witness :
  let s := new_manager 4294967040 3232238200 3232238180 3600 in
  offer_ip s "aa:bb:cc:dd:ee:01" 0 = (None, s).
Proof.
  intros s. apply (empty_range_never_offers s "aa:bb:cc:dd:ee:01" 0).
  - simpl. lia.
  - reflexivity.
Defined.

(** X9.  [offer_ip] for one client touches no entry of another client, in
    either table, and never changes the configuration. *)
Theorem offer_frame (s : LeaseManager) (mac : string) (now : Z) :
  let s' := (offer_ip s mac now).2 in
  (∀ mac', mac' ≠ mac →
     leases s' !! mac' = leases s !! mac'
     ∧ offered s' !! mac' = offered s !! mac')
  ∧ (range_start s', range_end s', lease_time s', subnet_netmask s')
    = (range_start s, range_end s, lease_time s, subnet_netmask s).
Proof.
  simpl.
  assert (G : ∀ mac', mac' ≠ mac →
    leases (get_lease s mac now).2 !! mac' = leases s !! mac'
    ∧ offered (get_lease s mac now).2 !! mac' = offered s !! mac').
  { intros mac' ?. destruct (get_lease_state s mac now) as [->|[-> _]];
      [done|]. simpl. split; [by apply lookup_delete_ne|done]. }
  assert (C : (range_start (get_lease s mac now).2,
               range_end (get_lease s mac now).2,
               lease_time (get_lease s mac now).2,
               subnet_netmask (get_lease s mac now).2)
              = (range_start s, range_end s, lease_time s, subnet_netmask s)).
  { by destruct (get_lease_state s mac now) as [->|[-> _]]. }
  destruct (offer_ip_state s mac now) as [->|(a & -> & _)]; [done|].
  simpl. split; [|done]. intros mac' Hne. destruct (G mac' Hne) as [G1 G2].
  split; [done|]. by rewrite lookup_insert_ne.
Qed.

(** X10.  A commit overwrites: of two commits for one MAC the later alone
    counts.  Commits for different MACs commute, and a commit touches no
    entry of another MAC. *)
Theorem commit_overwrites_and_commutes
    (s : LeaseManager) (m1 m2 a1 a2 : string) (t1 t2 : Z) :
  commit_lease (commit_lease s m1 a1 t1) m1 a2 t2 = commit_lease s m1 a2 t2
  ∧ (m1 ≠ m2 →
     commit_lease (commit_lease s m1 a1 t1) m2 a2 t2
     = commit_lease (commit_lease s m2 a2 t2) m1 a1 t1)
  ∧ (m1 ≠ m2 →
     leases (commit_lease s m1 a1 t1) !! m2 = leases s !! m2
     ∧ offered (commit_lease s m1 a1 t1) !! m2 = offered s !! m2).
Proof.
  unfold commit_lease. simpl. split; [|split].
  - by rewrite insert_insert_eq, delete_delete_eq.
  - intros Hne. f_equal.
    + by apply insert_insert_ne.
    + apply delete_delete.
  - intros Hne. split; [by apply lookup_insert_ne|by apply lookup_delete_ne].
Qed.

(** ** The lease manager, over several calls *)

(** The offer made to a client without a binding entry when the lowest free
    address is that of [k]. *)
Lemma offer_ip_picks (s : LeaseManager) (mac : string) (now k : Z) :
  leases s !! mac = None → range_start s ≤ k ≤ range_end s →
  ip_str k ∉ used_ips s now →
  (∀ j, range_start s ≤ j < k → ip_str j ∈ used_ips s now) →
  offer_ip s mac now
  = (Some (ip_str k),
     with_offered s (<[mac := MkLease (ip_str k) (now + 60)]> (offered s))).
Proof.
  intros Hl Hk Hfree Hpre. unfold offer_ip.
  rewrite (get_lease_absent _ _ _ Hl). simpl.
  rewrite (ip_range_split s k Hk), scan_first; [done| |done].
  intros j Hj. apply elem_of_seqZ in Hj. apply Hpre. lia.
Qed.

Lemma offer_ip_result_nonempty (s : LeaseManager) (mac a : string) (now : Z) :
  (offer_ip s mac now).1 = Some a → a ≠ EmptyString.
Proof.
  unfold offer_ip. destruct (get_lease s mac now) as [existing s1].
  destruct (truthy existing) eqn:Ht; simpl.
  - intros ->. by destruct a.
  - destruct (scan _ _) as [a'|] eqn:Hs; simpl; [|done].
    intros [= ->]. apply scan_Some in Hs as (_ & k & _ & ->).
    apply ip_str_nonempty.
Qed.

Lemma lease_time_offer_ip (s : LeaseManager) (mac : string) (now : Z) :
  lease_time (offer_ip s mac now).2 = lease_time s.
Proof.
  pose proof (lease_time_get_lease s mac now) as E.
  by destruct (offer_ip_state s mac now) as [->|(a & -> & _)].
Qed.

(** X11.  An offer nobody commits is recycled: in a fresh pool with a
    non-empty range the first client is offered the first address, and any
    client asking 60 ticks later or more is offered that same address. *)
Theorem stale_offer_recycled
    (netmask rs re lt : Z) (m1 m2 : string) (t now : Z) :
  rs ≤ re → t + 60 ≤ now →
  let r := offer_ip (new_manager netmask rs re lt) m1 t in
  r.1 = Some (ip_str rs) ∧ (offer_ip r.2 m2 now).1 = Some (ip_str rs).
Proof.
  intros Hr Ht. simpl.
  rewrite (offer_ip_picks _ m1 t rs); simpl; [|done|lia| |intros; lia].
  - split; [done|]. rewrite (offer_ip_picks _ m2 now rs); simpl;
      [done|done|lia| |intros; lia].
    rewrite elem_of_used_ips. simpl.
    intros [(m & l & Hl & _)|(m & o & Ho & He & _)].
    + by rewrite lookup_empty in Hl.
    + apply lookup_insert_Some in Ho as [[_ <-]|[_ Ho]]; simpl in *; [lia|].
      by rewrite lookup_empty in Ho.
  - rewrite elem_of_used_ips. simpl.
    intros [(m & l & Hl & _)|(m & o & Ho & _)]; by rewrite lookup_empty in *.
Qed.

Lemma stale_offer_recycled_witness :
  let r := offer_ip (new_manager 4294967040 3232238180 3232238181 3600)
             "aa:bb:cc:dd:ee:01" 5 in
  r.1 = Some (ip_str 3232238180)
  ∧ (offer_ip r.2 "aa:bb:cc:dd:ee:02" 65).1 = Some (ip_str 3232238180).
Proof.
  apply (stale_offer_recycled 4294967040 3232238180 3232238181 3600
           "aa:bb:cc:dd:ee:01" "aa:bb:cc:dd:ee:02" 5 65); lia.
Defined.

(** X12.  While its offer is pending, a client without a binding entry that
    asks again is never offered the same address: either the pending offer
    is replaced by an offer of another address, or the answer is [None] and
    the pending offer stays. *)
Theorem pending_offer_never_repeated
    (s : LeaseManager) (mac : string) (now : Z) (o : Lease) :
  leases s !! mac = None → offered s !! mac = Some o → expiry o > now →
  let r := offer_ip s mac now in
  r.1 ≠ Some (ip o)
  ∧ (∀ a, r.1 = Some a → offered r.2 !! mac = Some (MkLease a (now + 60)))
  ∧ (r.1 = None → offered r.2 !! mac = Some o).
Proof.
  intros Hl Ho He. simpl. split; [by apply offer_ip_avoids_own_offer|].
  unfold offer_ip. rewrite (get_lease_absent _ _ _ Hl). simpl.
  destruct (scan _ _) as [a'|]; simpl.
  - split; [|done]. intros a [= ->]. apply lookup_insert_eq.
  - split; [done|]. done.
Qed.

Lemma pending_offer_never_repeated_witness :
  let mac := "aa:bb:cc:dd:ee:01"%string in
  let s := (offer_ip pool2 mac 0).2 in
  let r := offer_ip s mac 1 in
  r.1 ≠ Some (ip (MkLease "192.168.10.100" 60))
  ∧ (∀ a, r.1 = Some a → offered r.2 !! mac = Some (MkLease a (1 + 60)))
  ∧ (r.1 = None → offered r.2 !! mac = Some (MkLease "192.168.10.100" 60)).
Proof.
  intros mac s.
  apply (pending_offer_never_repeated s mac 1 (MkLease "192.168.10.100" 60)).
  - vm_compute. reflexivity.
  - vm_compute. reflexivity.
  - simpl. lia.
Defined.

(** X13.  An address that has an entry in [leases], expired or not, is
    never offered to a client without a binding entry. *)
Theorem leased_address_not_offered
    (s : LeaseManager) (m m' : string) (l : Lease) (now : Z) :
  leases s !! m = Some l → leases s !! m' = None →
  (offer_ip s m' now).1 ≠ Some (ip l).
Proof.
  intros Hl Hn. unfold offer_ip. rewrite (get_lease_absent _ _ _ Hn). simpl.
  destruct (scan _ _) as [a|] eqn:Hs; simpl; [|done].
  intros [= ->]. apply scan_Some in Hs as [Hfree _]. apply Hfree.
  apply elem_of_used_ips. left. eauto.
Qed.

Lemma leased_address_not_offered_witness :
  let s := commit_lease pool2 "aa:bb:cc:dd:ee:01" "192.168.10.100" 0 in
  (offer_ip s "aa:bb:cc:dd:ee:02" 9999).1
  ≠ Some (ip (MkLease "192.168.10.100" 3600)).
Proof.
  intros s.
  apply (leased_address_not_offered s "aa:bb:cc:dd:ee:01" "aa:bb:cc:dd:ee:02"
           (MkLease "192.168.10.100" 3600) 9999).
  - vm_compute. reflexivity.
  - vm_compute. reflexivity.
Defined.

(** X14.  Offer, then commit of the offered address: until the lease
    expires every lookup and every further offer for that client returns the
    committed address and changes nothing. *)
Theorem offer_commit_then_stable
    (s : LeaseManager) (mac a : string) (t t1 t2 : Z) :
  (offer_ip s mac t).1 = Some a → t2 < t1 + lease_time s →
  let s2 := commit_lease (offer_ip s mac t).2 mac a t1 in
  get_lease s2 mac t2 = (Some a, s2) ∧ offer_ip s2 mac t2 = (Some a, s2).
Proof.
  intros Ha Ht. simpl.
  set (s2 := commit_lease (offer_ip s mac t).2 mac a t1).
  assert (Hl : leases s2 !! mac
               = Some (MkLease a (t1 + lease_time s))).
  { unfold s2. simpl. rewrite lease_time_offer_ip. apply lookup_insert_eq. }
  split.
  - by rewrite (get_lease_live _ _ _ _ Hl) by (simpl; lia).
  - rewrite (offer_ip_bound _ _ _ _ Hl); simpl; [done|lia|].
    by eapply offer_ip_result_nonempty.
Qed.

Lemma offer_commit_then_stable_witness :
  let mac := "aa:bb:cc:dd:ee:01"%string in
  let a := "192.168.10.100"%string in
  let s2 := commit_lease (offer_ip pool2 mac 0).2 mac a 3 in
  get_lease s2 mac 3000 = (Some a, s2) ∧ offer_ip s2 mac 3000 = (Some a, s2).
Proof.
  intros mac a.
  apply (offer_commit_then_stable pool2 mac a 0 3 3000).
  - vm_compute. reflexivity.
  - simpl. lia.
Defined.

(** ** What every sequence of calls preserves *)

(** When [offer_ip] records an offer, the client has no binding entry left,
    unless it is bound to the empty string. *)
Lemma offer_ip_records (s : LeaseManager) (mac : string) (now : Z) :
  let s1 := (get_lease s mac now).2 in
  (offer_ip s mac now).2 = s1
  ∨ ∃ a, (offer_ip s mac now).2
         = with_offered s1 (<[mac := MkLease a (now + 60)]> (offered s1))
       ∧ in_range s a
       ∧ ∀ l, leases s1 !! mac = Some l → ip l = EmptyString.
Proof.
  simpl. unfold offer_ip. pose proof (get_lease_range s mac now) as [E1 E2].
  destruct (get_lease s mac now) as [existing s1] eqn:Hg. simpl in *.
  destruct (truthy existing) eqn:Ht; [by left|].
  destruct (scan (used_ips s1 now) (ip_range s1)) as [a|] eqn:Hs; [|by left].
  right. exists a. split; [done|]. split.
  - apply scan_Some in Hs as (_ & k & Hk & ->).
    apply elem_of_ip_range in Hk. exists k. split; [lia|done].
  - intros l Hl. unfold get_lease in Hg.
    destruct (leases s !! mac) as [l0|] eqn:Hl0.
    + case_bool_decide; simplify_eq.
      * simpl in Ht. by destruct (ip l0).
      * simpl in Hl. by rewrite lookup_delete_eq in Hl.
    + simplify_eq.
Qed.

(** What arbitrary calls preserve, with [t] the clock reading of the last
    call: offers lie in the range and expire within 60 ticks, bindings
    expire within the lease time, and a MAC with an offer has no binding to
    a non-empty address. *)
Lemma any_call_inv (s : LeaseManager) (t : Z) :
  reachable_by any_call s t →
  (∀ mac o, offered s !! mac = Some o → in_range s (ip o) ∧ expiry o ≤ t + 60)
  ∧ (∀ mac l, leases s !! mac = Some l → expiry l ≤ t + lease_time s)
  ∧ (∀ mac o l, offered s !! mac = Some o → leases s !! mac = Some l →
                ip l = EmptyString).
Proof.
  induction 1 as [|s t o now _ (IO & IL & IB) Ht _].
  { simpl. repeat split; intros; simplify_map_eq. }
  assert (GO : ∀ mac mac' o',
    offered (get_lease s mac now).2 !! mac' = Some o' →
    in_range (get_lease s mac now).2 (ip o') ∧ expiry o' ≤ now + 60).
  { intros mac mac' o' Ho'. pose proof (get_lease_range s mac now) as [E1 E2].
    assert (offered s !! mac' = Some o') as Ho.
    { by destruct (get_lease_state s mac now) as [E|[E _]]; rewrite E in Ho'. }
    destruct (IO _ _ Ho). split; [by eapply in_range_ext|lia]. }
  assert (GL : ∀ mac mac' l',
    leases (get_lease s mac now).2 !! mac' = Some l' →
    leases s !! mac' = Some l').
  { intros mac mac' l' Hl'.
    destruct (get_lease_state s mac now) as [E|[E _]]; rewrite E in Hl';
      [done|]. simpl in Hl'. by apply lookup_delete_Some in Hl' as [_ ?]. }
  assert (GF : ∀ mac, offered (get_lease s mac now).2 = offered s).
  { intros mac. by destruct (get_lease_state s mac now) as [->|[-> _]]. }
  destruct o as [mac|mac|mac a]; simpl.
  - split; [by apply GO|]. split.
    + intros mac' l' Hl'. rewrite lease_time_get_lease.
      apply GL in Hl'. specialize (IL _ _ Hl'). lia.
    + intros mac' o' l' Ho' Hl'. rewrite GF in Ho'. apply GL in Hl'. eauto.
  - pose proof (get_lease_range s mac now) as [E1 E2].
    rewrite lease_time_offer_ip.
    destruct (offer_ip_records s mac now) as [->|(a & -> & Hin & Hb)].
    + split; [by apply GO|]. split.
      * intros mac' l' Hl'. apply GL in Hl'. specialize (IL _ _ Hl'). lia.
      * intros mac' o' l' Ho' Hl'. rewrite GF in Ho'. apply GL in Hl'. eauto.
    + simpl. split; [|split].
      * intros mac' o' Ho'.
        apply lookup_insert_Some in Ho' as [[_ <-]|[_ Ho']]; simpl.
        -- split; [|lia]. eapply in_range_ext; [| |exact Hin]; simpl; congruence.
        -- destruct (GO _ _ _ Ho') as [Hr ?]. split; [|done].
           eapply in_range_ext; [| |exact Hr]; done.
      * intros mac' l' Hl'. apply GL in Hl'. specialize (IL _ _ Hl'). lia.
      * intros mac' o' l' Ho' Hl'.
        apply lookup_insert_Some in Ho' as [[<- _]|[_ Ho']]; [by eapply Hb|].
        rewrite GF in Ho'. apply GL in Hl'. eauto.
  - split; [|split].
    + intros mac' o' Ho'. apply lookup_delete_Some in Ho' as [_ Ho'].
      destruct (IO _ _ Ho') as [Hr ?]. split; [|lia].
      eapply in_range_ext; [| |exact Hr]; done.
    + intros mac' l' Hl'.
      apply lookup_insert_Some in Hl' as [[_ <-]|[_ Hl']]; simpl; [lia|].
      specialize (IL _ _ Hl'). lia.
    + intros mac' o' l' Ho' Hl'. apply lookup_delete_Some in Ho' as [Hne Ho'].
      apply lookup_insert_Some in Hl' as [[? _]|[_ Hl']]; [done|]. eauto.
Qed.

(** A state reached by arbitrary calls, for the witnesses below: an offer,
    a commit of an address never offered, an offer to a second client. *)
Lemma reachable_sample :
  reachable_by any_call
    (run_op (run_op (run_op pool2 (Offer "aa:bb:cc:dd:ee:01") 0)
               (Commit "aa:bb:cc:dd:ee:02" "10.0.0.7") 5)
       (Offer "aa:bb:cc:dd:ee:03") 9) 9.
Proof.
  apply (reach_step any_call _ 5); [|lia|exact I].
  apply (reach_step any_call _ 0); [|lia|exact I].
  apply (reach_step any_call pool2 0); [|lia|exact I].
  apply reach_new.
Defined.

(** X15.  Whatever calls are made, every entry of the table of offers
    carries an address of the configured range (a binding need not: a commit
    stores any address). *)
Theorem offers_always_in_range (s : LeaseManager) (t : Z) :
  reachable_by any_call s t →
  ∀ mac o, offered s !! mac = Some o → in_range s (ip o).
Proof.
  intros R mac o Ho. destruct (any_call_inv s t R) as (IO & _ & _).
  by apply (IO mac o).
Qed.

Lemma offers_always_in_range_witness :
  in_range (run_op (run_op (run_op pool2 (Offer "aa:bb:cc:dd:ee:01") 0)
                      (Commit "aa:bb:cc:dd:ee:02" "10.0.0.7") 5)
              (Offer "aa:bb:cc:dd:ee:03") 9)
    (ip (MkLease "192.168.10.101" 69)).
Proof.
  apply (offers_always_in_range _ 9 reachable_sample "aa:bb:cc:dd:ee:03"
           (MkLease "192.168.10.101" 69)).
  vm_compute. reflexivity.
Defined.

(** X16.  Whatever calls are made at non-decreasing clock readings, no
    entry outlives its time to live: an offer expires at most 60 ticks after
    the last call, a binding at most the lease time after it. *)
Theorem entries_expire_within_ttl (s : LeaseManager) (t : Z) :
  reachable_by any_call s t →
  (∀ mac o, offered s !! mac = Some o → expiry o ≤ t + 60)
  ∧ (∀ mac l, leases s !! mac = Some l → expiry l ≤ t + lease_time s).
Proof.
  intros R. destruct (any_call_inv s t R) as (IO & IL & _).
  split; [|done]. intros mac o Ho. by apply (IO mac o).
Qed.

Lemma entries_expire_within_ttl_witness :
  let s := run_op (run_op (run_op pool2 (Offer "aa:bb:cc:dd:ee:01") 0)
                     (Commit "aa:bb:cc:dd:ee:02" "10.0.0.7") 5)
             (Offer "aa:bb:cc:dd:ee:03") 9 in
  (∀ mac o, offered s !! mac = Some o → expiry o ≤ 9 + 60)
  ∧ (∀ mac l, leases s !! mac = Some l → expiry l ≤ 9 + lease_time s).
Proof. exact (entries_expire_within_ttl _ 9 reachable_sample). Defined.

(** X17.  Whatever calls are made, a MAC never has a pending offer together
    with a binding to an address: the one binding an offer can coexist with
    is a binding to the empty string, which [offer_ip] takes for none. *)
Theorem no_offer_beside_binding (s : LeaseManager) (t : Z) :
  reachable_by any_call s t →
  ∀ mac o l, offered s !! mac = Some o → leases s !! mac = Some l →
             ip l = EmptyString.
Proof. intros R. by destruct (any_call_inv s t R) as (_ & _ & IB). Qed.

Lemma no_offer_beside_binding_witness :
  ip (MkLease EmptyString 3600) = EmptyString.
Proof.
  apply (no_offer_beside_binding
           (run_op (run_op pool2 (Commit "aa:bb:cc:dd:ee:01" EmptyString) 0)
              (Offer "aa:bb:cc:dd:ee:01") 1) 1
           ltac:(apply (reach_step any_call _ 0); [|lia|exact I];
                 apply (reach_step any_call pool2 0); [|lia|exact I];
                 apply reach_new)
           "aa:bb:cc:dd:ee:01" (MkLease "192.168.10.100" 61)
           (MkLease EmptyString 3600)).
  - vm_compute. reflexivity.
  - vm_compute. reflexivity.
Defined.

(** ** The option parser on well-formed and on cut-off option areas *)

Lemma byte_val_bounds (b : byte) : 0 ≤ byte_val b < 256.
Proof. unfold byte_val. pose proof (Byte.to_N_bounded b). lia. Qed.

Lemma byte_val_of_Z (z : Z) : 0 ≤ z < 256 → byte_val (byte_of_Z z) = z.
Proof.
  intros Hz. unfold byte_val, byte_of_Z.
  destruct (Byte.of_N (Z.to_N z)) as [b|] eqn:Hb; simpl.
  - apply Byte.to_of_N in Hb. lia.
  - apply Byte.of_N_None_iff in Hb. lia.
Qed.

Lemma byte_of_Z_val (b : byte) : byte_of_Z (byte_val b) = b.
Proof.
  unfold byte_val, byte_of_Z. by rewrite N2Z.id, Byte.of_to_N.
Qed.

Lemma parse_loop_suffix (fuel : nat) (data : list byte) (idx : nat)
    (options : gmap Z (list byte)) :
  parse_loop fuel data idx options = parse_suffix fuel (drop idx data) options.
Proof.
  revert idx options. induction fuel as [|fuel IH]; intros idx options; [done|].
  simpl. case_bool_decide as Hidx.
  - destruct (lookup_lt_is_Some_2 data idx Hidx) as [c Hc].
    rewrite Hc, (drop_S _ _ _ Hc).
    case_bool_decide; [done|]. case_bool_decide.
    { rewrite IH. by replace (idx + 1)%nat with (S idx) by lia. }
    replace (idx + 1)%nat with (S idx) by lia.
    destruct (data !! S idx) as [l|] eqn:Hl.
    + rewrite (drop_S _ _ _ Hl), IH. f_equal.
      * rewrite drop_drop. f_equal. lia.
      * do 2 f_equal. f_equal. lia.
    + by rewrite (drop_ge data (S idx)) by (by apply lookup_ge_None).
  - by rewrite drop_ge by lia.
Qed.

Lemma parse_options_suffix (prefix body : list byte) :
  length prefix = 240%nat →
  parse_options (prefix ++ body)
  = match parse_suffix (S (240 + length body)) body ∅ with
    | Some r => r
    | None => Ok ∅
    end.
Proof.
  intros Hp. unfold parse_options.
  rewrite parse_loop_suffix, length_app, Hp.
  by rewrite (drop_app_length' prefix body 240).
Qed.

Lemma parse_suffix_fuel_mono (fuel fuel' : nat) (rest : list byte)
    (options : gmap Z (list byte)) (r : result (gmap Z (list byte))) :
  (fuel ≤ fuel')%nat →
  parse_suffix fuel rest options = Some r →
  parse_suffix fuel' rest options = Some r.
Proof.
  revert fuel' rest options.
  induction fuel as [|fuel IH]; intros fuel' rest options Hle; [done|].
  destruct fuel' as [|fuel']; [lia|]. simpl.
  destruct rest as [|c rest]; [done|].
  case_bool_decide; [done|]. case_bool_decide; [apply IH; lia|].
  destruct rest as [|l rest]; [done|]. apply IH. lia.
Qed.

(** Reading well-formed items costs one iteration each and stores them in
    order. *)
Lemma parse_suffix_items (items : list item) (fuel : nat) (tl : list byte)
    (options : gmap Z (list byte)) :
  Forall wf_item items →
  parse_suffix (length items + fuel) (encode_items items ++ tl) options
  = parse_suffix fuel tl (foldl store_item options items).
Proof.
  intros Hwf. revert options.
  induction Hwf as [|i items Hi _ IH]; intros options; [done|].
  unfold encode_items in *. simpl. rewrite <- app_assoc.
  destruct i as [|c v]; simpl.
  - apply IH.
  - destruct Hi as (H0 & H255 & Hlen).
    rewrite !bool_decide_eq_false_2 by done.
    rewrite byte_val_of_Z by lia. rewrite Nat2Z.id.
    rewrite drop_app_length, take_app_length. apply IH.
Qed.

Lemma length_encode_items (items : list item) :
  (length items ≤ length (encode_items items))%nat.
Proof.
  unfold encode_items. induction items as [|i items IH]; [done|].
  rewrite fmap_cons. simpl concat. rewrite length_app. simpl length at 1.
  destruct i; simpl; lia.
Qed.

(** The parse of an option area that starts with well-formed items, given
    the parse of what follows them. *)
Lemma parse_options_items (prefix : list byte) (items : list item)
    (tl : list byte) (r : result (gmap Z (list byte))) :
  length prefix = 240%nat → Forall wf_item items →
  parse_suffix 2 tl (options_of items) = Some r →
  parse_options (prefix ++ encode_items items ++ tl) = r.
Proof.
  intros Hp Hwf Htl. rewrite parse_options_suffix by done.
  pose proof (length_encode_items items) as Hlen.
  rewrite length_app.
  replace (S (240 + (length (encode_items items) + length tl)))
    with (length items
          + (S (240 + (length (encode_items items) + length tl))
             - length items))%nat by lia.
  rewrite parse_suffix_items by done.
  rewrite (parse_suffix_fuel_mono 2 _ tl _ r); [done|lia|done].
Qed.

(** X18.  Round trip of an option area: well-formed items, pad bytes among
    them, followed by the end option parse to the dictionary of the options
    in which a later option replaces an earlier one of the same code;
    whatever follows the end option is not read. *)
Theorem options_round_trip_with_end
    (prefix : list byte) (items : list item) (junk : list byte) :
  length prefix = 240%nat → Forall wf_item items →
  parse_options (prefix ++ encode_items items ++ xff :: junk)
  = Ok (options_of items).
Proof. intros Hp Hwf. by apply parse_options_items. Qed.

Lemma options_round_trip_with_end_witness :
  parse_options
    (blank_header
       ++ encode_items [Opt x35 [x01]; Pad; Opt x32 [x0a; x00; x00; x07];
                        Opt x35 [x03]]
       ++ xff :: [x35; x09; x09])
  = Ok (options_of [Opt x35 [x01]; Pad; Opt x32 [x0a; x00; x00; x07];
                    Opt x35 [x03]]).
Proof.
  apply (options_round_trip_with_end blank_header
           [Opt x35 [x01]; Pad; Opt x32 [x0a; x00; x00; x07]; Opt x35 [x03]]
           [x35; x09; x09]).
  - reflexivity.
  - repeat constructor; simpl; lia || done.
Defined.

(** X19.  The end option is not needed: well-formed items that run to the
    very end of the buffer parse to the same dictionary. *)
Theorem options_round_trip_without_end
    (prefix : list byte) (items : list item) :
  length prefix = 240%nat → Forall wf_item items →
  parse_options (prefix ++ encode_items items) = Ok (options_of items).
Proof.
  intros Hp Hwf. rewrite <- (app_nil_r (encode_items items)).
  by apply parse_options_items.
Qed.

Lemma options_round_trip_without_end_witness :
  parse_options (blank_header ++ encode_items [Pad; Opt x35 [x01]])
  = Ok (options_of [Pad; Opt x35 [x01]]).
Proof.
  apply (options_round_trip_without_end blank_header [Pad; Opt x35 [x01]]).
  - reflexivity.
  - repeat constructor; simpl; lia || done.
Defined.

(** X20.  A last option whose length byte announces more bytes than the
    buffer still holds is stored with the bytes that are there, and the
    parse ends without an exception. *)
Theorem cut_off_value_is_kept
    (prefix : list byte) (items : list item) (c l : byte) (v : list byte) :
  length prefix = 240%nat → Forall wf_item items →
  byte_val c ≠ 0 → byte_val c ≠ 255 → Z.of_nat (length v) ≤ byte_val l →
  parse_options (prefix ++ encode_items items ++ c :: l :: v)
  = Ok (<[byte_val c := v]> (options_of items)).
Proof.
  intros Hp Hwf H0 H255 Hl. apply parse_options_items; [done|done|].
  simpl. rewrite !bool_decide_eq_false_2 by done.
  rewrite drop_ge, take_ge by lia. done.
Qed.

Lemma cut_off_value_is_kept_witness :
  parse_options (blank_header ++ encode_items [Pad] ++ x32 :: x04 :: [x0a; x00])
  = Ok (<[byte_val x32 := [x0a; x00]]> (options_of [Pad])).
Proof.
  apply (cut_off_value_is_kept blank_header [Pad] x32 x04 [x0a; x00]).
  - reflexivity.
  - repeat constructor.
  - vm_compute. discriminate.
  - vm_compute. discriminate.
  - vm_compute. discriminate.
Defined.

(** X21.  An option code other than pad and end in the very last byte of
    the buffer, after any well-formed items, makes the parse raise
    [IndexError]. *)
Theorem missing_length_byte_raises
    (prefix : list byte) (items : list item) (c : byte) :
  length prefix = 240%nat → Forall wf_item items →
  byte_val c ≠ 0 → byte_val c ≠ 255 →
  parse_options (prefix ++ encode_items items ++ [c]) = Raise IndexError.
Proof.
  intros Hp Hwf H0 H255. apply parse_options_items; [done|done|].
  simpl. by rewrite !bool_decide_eq_false_2 by done.
Qed.

Lemma missing_length_byte_raises_witness :
  parse_options (blank_header ++ encode_items [Opt x35 [x01]] ++ [x32])
  = Raise IndexError.
Proof.
  apply (missing_length_byte_raises blank_header [Opt x35 [x01]] x32).
  - reflexivity.
  - repeat constructor; simpl; lia || done.
  - vm_compute. discriminate.
  - vm_compute. discriminate.
Defined.

(** X22.  The parser reads nothing of the first 240 bytes: two buffers that
    differ only there parse alike. *)
Theorem options_ignore_fixed_part (prefix prefix' body : list byte) :
  length prefix = 240%nat → length prefix' = 240%nat →
  parse_options (prefix ++ body) = parse_options (prefix' ++ body).
Proof. intros Hp Hp'. by rewrite !parse_options_suffix. Qed.

Lemma options_ignore_fixed_part_witness :
  parse_options (blank_header ++ [x35; x01; x01; xff])
  = parse_options (replicate 240 x07 ++ [x35; x01; x01; xff]).
Proof.
  apply (options_ignore_fixed_part blank_header (replicate 240 x07)
           [x35; x01; x01; xff]); reflexivity.
Defined.

(** ** The body of the handler and the receive loop *)

(** X23.  Past the header, a DISCOVER runs [offer_ip] for the key of the
    first six bytes of [chaddr]: the lease manager is left as [offer_ip]
    leaves it, so that an address is reserved whenever one is free, and the
    call then ends in the exception of [send_reply]; without a free address
    it returns quietly. *)
Theorem discover_reserves_without_reply
    (inet_aton : string → result (list byte)) (srv : DHCPServer)
    (s : LeaseManager) (now : Z) (data : list byte) (xid : Z)
    (chaddr : list byte) (options : gmap Z (list byte)) (mt : byte)
    (rest : list byte) :
  take 4 (drop 236 data) = magic_cookie →
  parse_options data = Ok options → options !! 53 = Some (mt :: rest) →
  byte_val mt = 1 →
  let r := offer_ip s (mac_str (take 6 chaddr)) now in
  handle_unpacked inet_aton srv s now data xid chaddr
  = (r.2, match r.1 with Some _ => Raise StructError | None => Ok None end).
Proof.
  intros Hc Hp H53 Hmt. simpl. unfold handle_unpacked.
  rewrite bool_decide_eq_false_2 by (by intros ?).
  rewrite Hp, H53. rewrite bool_decide_eq_true_2 by done.
  destruct (offer_ip s (mac_str (take 6 chaddr)) now) as [[a|] s1] eqn:E;
    simpl; [|done].
  assert (a ≠ EmptyString) as Hne.
  { apply (offer_ip_result_nonempty s (mac_str (take 6 chaddr)) a now).
    by rewrite E. }
  by destruct a.
Qed.

Lemma discover_reserves_without_reply_witness :
  let aton := λ _ : string, Raise OSError in
  let srv := MkDHCPServer "192.168.10.1" "8.8.8.8" in
  let data := blank_header ++ [x35; x01; x01; xff] in
  let chaddr := [x00; x1a; xff; x0b; xc0; x9e] ++ replicate 10 x00 in
  let r := offer_ip pool2 (mac_str (take 6 chaddr)) 0 in
  handle_unpacked aton srv pool2 0 data 7 chaddr
  = (r.2, match r.1 with Some _ => Raise StructError | None => Ok None end).
Proof.
  intros aton srv data chaddr.
  apply (discover_reserves_without_reply aton srv pool2 0 data 7 chaddr
           {[ 53 := [x01] ]} x01 []); vm_compute; reflexivity.
Defined.

(** X24.  Past the header, a REQUEST with a four-byte option 50 commits the
    dotted quad of those bytes for the key of the first six bytes of
    [chaddr], whether or not the address was offered or lies in the range,
    and the call then ends in the exception of [send_reply]. *)
Theorem request_commits_without_reply
    (inet_aton : string → result (list byte)) (srv : DHCPServer)
    (s : LeaseManager) (now : Z) (data : list byte) (xid : Z)
    (chaddr : list byte) (options : gmap Z (list byte)) (mt : byte)
    (rest requested : list byte) :
  take 4 (drop 236 data) = magic_cookie →
  parse_options data = Ok options → options !! 53 = Some (mt :: rest) →
  byte_val mt = 3 → options !! 50 = Some requested →
  length requested = 4%nat →
  handle_unpacked inet_aton srv s now data xid chaddr
  = (commit_lease s (mac_str (take 6 chaddr))
       (String.concat "." (str_of_byte <$> requested)) now,
     Raise StructError).
Proof.
  intros Hc Hp H53 Hmt H50 Hlen. unfold handle_unpacked.
  rewrite bool_decide_eq_false_2 by (by intros ?).
  rewrite Hp, H53. rewrite bool_decide_eq_false_2 by lia.
  rewrite bool_decide_eq_true_2 by done. rewrite H50.
  destruct requested as [|b bs]; [done|].
  unfold inet_ntoa. by rewrite bool_decide_eq_true_2 by done.
Qed.

Lemma request_commits_without_reply_witness :
  let aton := λ _ : string, Raise OSError in
  let srv := MkDHCPServer "192.168.10.1" "8.8.8.8" in
  let data := blank_header ++ [x35; x01; x03; x32; x04; x0a; x00; x00; x07; xff] in
  let chaddr := [x00; x1a; xff; x0b; xc0; x9e] ++ replicate 10 x00 in
  handle_unpacked aton srv pool2 0 data 7 chaddr
  = (commit_lease pool2 (mac_str (take 6 chaddr))
       (String.concat "." (str_of_byte <$> [x0a; x00; x00; x07])) 0,
     Raise StructError).
Proof.
  intros aton srv data chaddr.
  apply (request_commits_without_reply aton srv pool2 0 data 7 chaddr
           (<[50 := [x0a; x00; x00; x07]]> {[ 53 := [x03] ]}) x03 []
           [x0a; x00; x00; x07]); vm_compute; reflexivity.
Defined.

(** X25.  Past the header, a REQUEST changes nothing unless its option 50
    has exactly four bytes: without the option, or with an empty one, the
    call returns quietly; with an option of another length it ends in the
    [OSError] of [inet_ntoa]. *)
Theorem request_without_usable_address
    (inet_aton : string → result (list byte)) (srv : DHCPServer)
    (s : LeaseManager) (now : Z) (data : list byte) (xid : Z)
    (chaddr : list byte) (options : gmap Z (list byte)) (mt : byte)
    (rest : list byte) :
  take 4 (drop 236 data) = magic_cookie →
  parse_options data = Ok options → options !! 53 = Some (mt :: rest) →
  byte_val mt = 3 →
  (nonempty (options !! 50) = false →
   handle_unpacked inet_aton srv s now data xid chaddr = (s, Ok None))
  ∧ (∀ requested, options !! 50 = Some requested → requested ≠ [] →
       length requested ≠ 4%nat →
       handle_unpacked inet_aton srv s now data xid chaddr = (s, Raise OSError)).
Proof.
  intros Hc Hp H53 Hmt. unfold handle_unpacked.
  rewrite bool_decide_eq_false_2 by (by intros ?).
  rewrite Hp, H53. rewrite bool_decide_eq_false_2 by lia.
  rewrite bool_decide_eq_true_2 by done. split.
  - by destruct (options !! 50) as [[|??]|].
  - intros requested -> Hne Hlen. destruct requested as [|b bs]; [done|].
    unfold inet_ntoa. by rewrite bool_decide_eq_false_2 by done.
Qed.

Lemma request_without_usable_address_witness :
  let aton := λ _ : string, Raise OSError in
  let srv := MkDHCPServer "192.168.10.1" "8.8.8.8" in
  let data := blank_header ++ [x35; x01; x03; x32; x02; x0a; x00; xff] in
  let options : gmap Z (list byte) := <[50 := [x0a; x00]]> {[ 53 := [x03] ]} in
  let chaddr := [x00; x1a; xff; x0b; xc0; x9e] ++ replicate 10 x00 in
  (nonempty (options !! 50) = false →
   handle_unpacked aton srv pool2 0 data 7 chaddr = (pool2, Ok None))
  ∧ (∀ requested, options !! 50 = Some requested → requested ≠ [] →
       length requested ≠ 4%nat →
       handle_unpacked aton srv pool2 0 data 7 chaddr = (pool2, Raise OSError)).
Proof.
  intros aton srv data options chaddr.
  apply (request_without_usable_address aton srv pool2 0 data 7 chaddr
           options x03 []); vm_compute; reflexivity.
Defined.

(** X26.  Whatever the datagram, [handle_packet] sends nothing and leaves
    the lease manager as it was: it returns at once on fewer than 240 bytes
    and ends in [struct.error] on 240 bytes or more. *)
Theorem handle_packet_never_acts
    (inet_aton : string → result (list byte)) (srv : DHCPServer)
    (s : LeaseManager) (now : Z) (data : list byte) :
  handle_packet inet_aton srv s now data
  = (s, if bool_decide (length data < 240)%nat then Ok None
        else Raise StructError).
Proof.
  case_bool_decide.
  - by apply handle_packet_short.
  - apply handle_packet_long. lia.
Qed.

(** X27.  Past the header no datagram is sent either, whatever the message:
    every path that reaches [send_reply] ends in its exception. *)
Theorem body_never_replies
    (inet_aton : string → result (list byte)) (srv : DHCPServer)
    (s : LeaseManager) (now : Z) (data : list byte) (xid : Z)
    (chaddr : list byte) :
  reply_of (handle_unpacked inet_aton srv s now data xid chaddr) = None.
Proof. apply handle_unpacked_never_replies. Qed.

(** X28.  The receive loop, over any run of datagrams and receive errors,
    sends nothing and ends with the lease manager it started with; so does
    [start] whenever it returns. *)
Theorem server_never_serves
    (inet_aton : string → result (list byte)) (srv : DHCPServer)
    (s : LeaseManager) (b : bind_outcome) (turns : list recv) :
  serve inet_aton srv s turns = (s, [])
  ∧ ∀ r, start inet_aton srv s b turns = Ok r → r = (s, []).
Proof.
  assert (H : serve inet_aton srv s turns = (s, [])).
  { induction turns as [|[payload now|] turns IH]; simpl; [done| |done].
    destruct (handle_packet_inert inet_aton srv s now (take 1024 payload))
      as [-> ->]. by rewrite IH. }
  split; [done|]. intros r. destruct b; simpl; congruence.
Qed.

(** ** The text of addresses *)

Lemma read_octet_dot (b : byte) (r : string) :
  read_octet (String.append (str_of_byte b) (String "." r)) 0 = (byte_val b, r).
Proof. destruct b; vm_compute; reflexivity. Qed.

Lemma read_octet_end (b : byte) :
  read_octet (str_of_byte b) 0 = (byte_val b, EmptyString).
Proof. destruct b; vm_compute; reflexivity. Qed.

Lemma dotted_four (b0 b1 b2 b3 : byte) :
  String.concat "." (str_of_byte <$> [b0; b1; b2; b3])
  = String.append (str_of_byte b0) (String "."
      (String.append (str_of_byte b1) (String "."
        (String.append (str_of_byte b2) (String "." (str_of_byte b3)))))).
Proof. reflexivity. Qed.

Lemma read_quad_dotted (b0 b1 b2 b3 : byte) :
  read_quad (String.concat "." (str_of_byte <$> [b0; b1; b2; b3]))
  = [b0; b1; b2; b3].
Proof.
  rewrite dotted_four. unfold read_quad.
  rewrite !read_octet_dot, read_octet_end. simpl.
  by rewrite !byte_of_Z_val.
Qed.

Lemma length_be_bytes (k : nat) (n : Z) : length (be_bytes k n) = k.
Proof. induction k as [|k IH]; simpl; [done|]. by rewrite IH. Qed.

(** Four big-endian bytes read back give the integer. *)
Lemma be_int_be_bytes_4 (n : Z) :
  0 ≤ n < 2 ^ 32 → be_int (be_bytes 4 n) = n.
Proof.
  intros Hn. unfold be_int. simpl.
  rewrite !byte_val_of_Z by (apply Z.mod_pos_bound; lia).
  change (256 ^ Z.of_nat 3) with 16777216.
  change (256 ^ Z.of_nat 2) with 65536.
  change (256 ^ Z.of_nat 1) with 256. change (256 ^ Z.of_nat 0) with 1.
  change (2 ^ 32) with 4294967296 in Hn.
  rewrite Z.div_1_r. Z.div_mod_to_equations. lia.
Qed.

(** X29.  [inet_ntoa] succeeds on exactly four bytes, and its text
    determines them: read back number by number, the dotted quad gives the
    four bytes again.  So two different requested addresses are never
    committed under one text. *)
Theorem inet_ntoa_round_trip (packed : list byte) :
  (length packed ≠ 4%nat → inet_ntoa packed = Raise OSError)
  ∧ (length packed = 4%nat →
     ∃ a, inet_ntoa packed = Ok a ∧ read_quad a = packed)
  ∧ ∀ packed' a, inet_ntoa packed = Ok a → inet_ntoa packed' = Ok a →
                 packed = packed'.
Proof.
  assert (R : ∀ p a, inet_ntoa p = Ok a → read_quad a = p).
  { intros p a. unfold inet_ntoa. case_bool_decide as Hl; [|done].
    do 4 (destruct p as [|? p]; [done|]). destruct p; [|done].
    intros [= <-]. apply read_quad_dotted. }
  split; [|split].
  - intros Hl. unfold inet_ntoa. by rewrite bool_decide_eq_false_2.
  - intros Hl. unfold inet_ntoa. rewrite bool_decide_eq_true_2 by done.
    eexists. split; [done|]. apply R. unfold inet_ntoa.
    by rewrite bool_decide_eq_true_2.
  - intros packed' a H H'. by rewrite <- (R _ _ H), <- (R _ _ H').
Qed.

Lemma ip_str_inj (n m : Z) :
  0 ≤ n < 2 ^ 32 → 0 ≤ m < 2 ^ 32 → ip_str n = ip_str m → n = m.
Proof.
  intros Hn Hm H.
  assert (B : ∀ k, read_quad (ip_str k) = be_bytes 4 k).
  { intros k. unfold ip_str. simpl be_bytes. apply read_quad_dotted. }
  apply (f_equal read_quad) in H. rewrite !B in H.
  apply (f_equal be_int) in H. by rewrite !be_int_be_bytes_4 in H.
Qed.

(** X30.  When the configured range lies within the 32-bit addresses, its
    integers are rendered as pairwise distinct addresses: a range of N
    integers is a pool of N addresses. *)
Theorem range_addresses_distinct (s : LeaseManager) :
  0 ≤ range_start s → range_end s < 2 ^ 32 →
  NoDup (ip_str <$> ip_range s)
  ∧ length (ip_str <$> ip_range s)
    = Z.to_nat (range_end s + 1 - range_start s).
Proof.
  intros Hs He. split.
  - apply NoDup_fmap_2_strong; [|apply NoDup_seqZ].
    intros n m Hn Hm. apply elem_of_ip_range in Hn, Hm.
    apply ip_str_inj; lia.
  - unfold ip_range. by rewrite length_fmap, length_seqZ.
Qed.

Lemma range_addresses_distinct_witness :
  NoDup (ip_str <$> ip_range pool2)
  ∧ length (ip_str <$> ip_range pool2)
    = Z.to_nat (range_end pool2 + 1 - range_start pool2).
Proof. apply (range_addresses_distinct pool2); simpl; lia. Defined.
